(** * oce-nextjs-gallery-sample: the content-delivery access layer

    A shallow embedding of the JavaScript modules
      - [scripts/server-config-utils.js] (token cache, credential resolver,
        client factory; the file exists in two variants, both embedded),
      - [scripts/utils.js] (image URL rewriting),
      - [scripts/services.js] (array flattening, category fan-out),
      - the API route that proxies browser requests to the content server,
    together with the properties the specification states about them.

    Conventions.  A value of [process.env] is [option string]: [None] is
    [undefined].  JavaScript numbers that hold millisecond timestamps and
    durations are integers ([Z]); [NaN] is made explicit where the code can
    produce it.  Module-level [let] variables become fields of a state record
    that every function takes and returns. *)

From Stdlib Require Import ZArith String Ascii List Bool Lia Permutation.
From Stdlib Require Import DecimalString.
From stdpp Require Import base list.
Import ListNotations.
Local Open Scope string_scope.
Local Open Scope Z_scope.

(** ** JavaScript primitives used by the modules *)

Module JS.

(** [ToBoolean] on a value that is a string or [undefined]/[null]:
    only the empty string and the missing value are falsy. *)
Definition truthy (v : option string) : bool :=
  match v with
  | None => false
  | Some s => negb (String.eqb s "")
  end.

(** [ToString] as applied by template literals and by the string
    arguments of [String.prototype] methods: [undefined] prints as the
    nine letters. *)
Definition to_string (v : option string) : string :=
  match v with
  | None => "undefined"
  | Some s => s
  end.

(** Drop the first [n] characters. *)
Fixpoint skip (n : nat) (s : string) : string :=
  match n, s with
  | O, _ => s
  | S n', String _ s' => skip n' s'
  | S _, EmptyString => EmptyString
  end.

(** [s.startsWith(p)]. *)
Definition startsWith (p s : string) : bool := String.prefix p s.

(** [s.replace(pat, rep)] for a string pattern and a replacement without
    [$] patterns: the leftmost occurrence of [pat] is replaced, nothing
    else changes; without an occurrence [s] is returned. *)
Fixpoint replace (pat rep s : string) : string :=
  if String.prefix pat s then rep ++ skip (String.length pat) s
  else match s with
       | EmptyString => EmptyString
       | String c s' => String c (replace pat rep s')
       end.

(** Time values.  [new Date(v)] clips: a non-finite value or one beyond
    8.64e15 ms gives an Invalid Date, whose [getTime()] is [NaN]. *)
Inductive Date : Type :=
| Date_ms (t : Z)
| Invalid_Date.

Definition MAX_TIME : Z := 8640000000000000.

(** A number that may be [NaN] is [option Z]. *)
Definition new_Date (v : option Z) : Date :=
  match v with
  | Some t => if Z.abs t <=? MAX_TIME then Date_ms t else Invalid_Date
  | None => Invalid_Date
  end.

Definition getTime (d : Date) : option Z :=
  match d with
  | Date_ms t => Some t
  | Invalid_Date => None
  end.

(** [a + b] and [a - b], [a > b] on numbers: [NaN] is absorbing for the
    arithmetic and makes every comparison false. *)
Definition num_add (a b : option Z) : option Z :=
  match a, b with
  | Some x, Some y => Some (x + y)
  | _, _ => None
  end.

Definition num_sub (a b : option Z) : option Z :=
  match a, b with
  | Some x, Some y => Some (x - y)
  | _, _ => None
  end.

Definition num_gt (a b : option Z) : bool :=
  match a, b with
  | Some x, Some y => x >? y
  | _, _ => false
  end.

End JS.

(** ** Configuration: [process.env] *)

Record Env : Type := mkEnv {
  AUTH : option string;
  CLIENT_ID : option string;
  CLIENT_SECRET : option string;
  CLIENT_SCOPE_URL : option string;
  IDCS_URL : option string;
  SERVER_URL : option string;
  API_VERSION : option string;
  CHANNEL_TOKEN : option string;
  PREVIEW : option string;
  IS_BROWSER : option string;
  (** [window.location.origin], read only in a browser *)
  window_location_origin : string;
  (** [new URL('/oauth2/v1/token', process.env.IDCS_URL).toString()] as the
      platform's URL parser gives it; [None] when the constructor throws
      its [TypeError] ([IDCS_URL] missing or not an absolute URL) *)
  token_endpoint : option string
}.

(** [next.config.js], [env] block: the public copy of the server URL. *)
Definition NEXT_PUBLIC_SERVER_URL (env : Env) : option string := SERVER_URL env.

(** ** [scripts/server-config-utils.js], the variant with authentication *)

Module ServerConfigUtils.

Definition FIVE_SECONDS_MS : Z := 5000.

(** The module globals [globalAuthValue] (a string or [null]) and
    [globalAuthExpiry] (a [Date] or [null]). *)
Record Globals : Type := mkGlobals {
  globalAuthValue : option string;
  globalAuthExpiry : option JS.Date
}.

(** [let globalAuthValue = ''; let globalAuthExpiry = null;] *)
Definition initial : Globals :=
  {| globalAuthValue := Some ""; globalAuthExpiry := None |}.

Definition isAuthNeeded (env : Env) : bool :=
  if JS.truthy (AUTH env) || JS.truthy (CLIENT_ID env) then true else false.

(** What the token endpoint does with one request. *)
Inductive Reply : Type :=
| FetchRejects                 (* [fetch] rejects: no response *)
| JsonRejects                  (* [response.json()] rejects: body is not JSON *)
| Json (access_token : option string) (expires_in : option Z).
                               (* a JSON object; a missing field is [None] *)

Inductive Error : Type :=
| TypeError                    (* thrown by [new URL] *)
| FetchError
| JsonError.

Inductive Completion (A : Type) : Type :=
| Fulfilled (a : A)
| Rejected (e : Error).
Arguments Fulfilled {A} a.
Arguments Rejected {A} e.

(** The POST sent to the token endpoint [restURL].  Two parts are kept as
    they are before the platform encodes them: [authString] goes through
    base64 into the Basic header, [scope] through [encodeURIComponent] into
    the body after [grant_type=client_credentials&scope=]. *)
Record TokenRequest : Type := mkTokenRequest {
  restURL : string;
  authString : string;
  scope : string
}.

(** What one call sees of the outside world: the clock at
    [new Date()], the endpoint's reply, the clock at [Date.now()]. *)
Record Io : Type := mkIo {
  date_new : Z;
  reply : Reply;
  date_now : Z
}.

(** The result of running an async function to completion: how its
    promise settles, the module globals afterwards, and the token
    requests it sent, oldest first. *)
Record Run (A : Type) : Type := mkRun {
  outcome : Completion A;
  final : Globals;
  sent : list TokenRequest
}.
Arguments mkRun {A} _ _ _.
Arguments outcome {A} _.
Arguments final {A} _.
Arguments sent {A} _.

(** Async code over the module globals. *)
Definition Async (A : Type) : Type := Globals -> Run A.

Definition ret {A} (a : A) : Async A :=
  fun g => mkRun (Fulfilled a) g [].

Definition bind {A B} (m : Async A) (k : A -> Async B) : Async B :=
  fun g =>
    let r := m g in
    match outcome r with
    | Rejected e => mkRun (Rejected e) (final r) (sent r)
    | Fulfilled a =>
        let r' := k a (final r) in
        mkRun (outcome r') (final r') (sent r ++ sent r')
    end.

Definition throw {A} (e : Error) : Async A :=
  fun g => mkRun (Rejected e) g [].

Definition read : Async Globals := fun g => mkRun (Fulfilled g) g [].

Definition set_globalAuthValue (v : option string) : Async unit :=
  fun g => mkRun (Fulfilled tt)
             {| globalAuthValue := v; globalAuthExpiry := globalAuthExpiry g |} [].

Definition set_globalAuthExpiry (d : option JS.Date) : Async unit :=
  fun g => mkRun (Fulfilled tt)
             {| globalAuthValue := globalAuthValue g; globalAuthExpiry := d |} [].

(** [await fetch(...)] followed by [await response.json()]. *)
Definition fetch_json (rq : TokenRequest) (rp : Reply)
  : Async (option string * option Z) :=
  fun g =>
    match rp with
    | FetchRejects => mkRun (Rejected FetchError) g [rq]
    | JsonRejects => mkRun (Rejected JsonError) g [rq]
    | Json tok exp => mkRun (Fulfilled (tok, exp)) g [rq]
    end.

Declare Scope async_scope.
Delimit Scope async_scope with async.
Notation "x <- m ;; k" := (bind m (fun x => k))
  (at level 100, m at next level, right associativity) : async_scope.
Notation "m ;;; k" := (bind m (fun _ => k))
  (at level 100, right associativity) : async_scope.
Local Open Scope async_scope.

Record AuthDetails : Type := mkAuthDetails {
  authHeaderValue : string;
  expiry : option Z
}.

Definition getBearerAuth (env : Env) (rp : Reply) : Async AuthDetails :=
  let authString :=
    JS.to_string (CLIENT_ID env) ++ ":" ++ JS.to_string (CLIENT_SECRET env) in
  let encodedScopeUrl := JS.to_string (CLIENT_SCOPE_URL env) in
  match token_endpoint env with
  | None => throw TypeError
  | Some restURL =>
      responseJSON <- fetch_json {| restURL := restURL;
                                    authString := authString;
                                    scope := encodedScopeUrl |} rp ;;
      let access_token := fst responseJSON in
      let expiry := snd responseJSON in
      ret {| authHeaderValue := "Bearer " ++ JS.to_string access_token;
             expiry := expiry |}
  end.

(** The test of line 113: no value, no expiry, or
    [expiry - 5000 > currentDate]. *)
Definition refresh_test (g : Globals) (currentDate : Z) : bool :=
  negb (JS.truthy (globalAuthValue g))
  || match globalAuthExpiry g with
     | None => true
     | Some d =>
         JS.num_gt (JS.num_sub (JS.getTime d) (Some FIVE_SECONDS_MS))
                   (Some currentDate)
     end.

Definition getAuthValue (env : Env) (io : Io) : Async (option string) :=
  (if JS.truthy (AUTH env) then
     set_globalAuthValue (AUTH env)
   else if JS.truthy (CLIENT_ID env) then
     let currentDate := date_new io in
     g <- read ;;
     if refresh_test g currentDate then
       set_globalAuthValue (Some "") ;;;
       authDetails <- getBearerAuth env (reply io) ;;
       set_globalAuthValue (Some (authHeaderValue authDetails)) ;;;
       let currDateMS := Some (date_now io) in
       let currDateMS := JS.num_add currDateMS (expiry authDetails) in
       set_globalAuthExpiry (Some (JS.new_Date currDateMS))
     else ret tt
   else
     set_globalAuthValue None ;;;
     set_globalAuthExpiry None) ;;;
  g <- read ;;
  ret (globalAuthValue g).

(** The configuration object handed to the SDK.  [beforeSend] records
    whether the [beforeSendCallback] hook has been attached. *)
Record ServerConfig : Type := mkServerConfig {
  contentServer : option string;
  contentVersion : option string;
  channelToken : option string;
  beforeSend : bool
}.

(** [@oracle/content-management-sdk]: both factories construct a new
    client object on every call.  Object identity is the allocation
    number [handle]; the SDK state is the number of clients built so far. *)
Inductive ClientKind : Type :=
| DeliveryClient
| PreviewClient.

Record Client : Type := mkClient {
  handle : nat;
  kind : ClientKind;
  config : ServerConfig
}.

Definition createDeliveryClient (c : ServerConfig) (built : nat) : Client * nat :=
  ({| handle := built; kind := DeliveryClient; config := c |}, S built).

Definition createPreviewClient (c : ServerConfig) (built : nat) : Client * nat :=
  ({| handle := built; kind := PreviewClient; config := c |}, S built).

(** [a === b] on two client objects. *)
Definition same_instance (a b : Client) : bool := Nat.eqb (handle a) (handle b).

(** Lines 162-197.  No module variable holds the client. *)
Definition getClient (env : Env) (built : nat) : Client * nat :=
  let serverURL :=
    if isAuthNeeded env && JS.truthy (IS_BROWSER env)
    then Some (window_location_origin env ++ "/")
    else SERVER_URL env in
  let serverconfig :=
    {| contentServer := serverURL;
       contentVersion := API_VERSION env;
       channelToken := CHANNEL_TOKEN env;
       beforeSend := false |} in
  let serverconfig :=
    if isAuthNeeded env && negb (JS.truthy (IS_BROWSER env))
    then {| contentServer := contentServer serverconfig;
            contentVersion := contentVersion serverconfig;
            channelToken := channelToken serverconfig;
            beforeSend := true |}
    else serverconfig in
  if JS.truthy (PREVIEW env) then createPreviewClient serverconfig built
  else createDeliveryClient serverconfig built.

End ServerConfigUtils.

(** ** [scripts/server-config-utils.js], the variant without authentication
    (lines 199-242): the client is kept in [clientInstance]. *)

Module ServerConfigUtilsDelivery.

Import ServerConfigUtils.

(** The module state: [clientInstance] ([None] is [null]) and the SDK's
    allocation count. *)
Record Globals : Type := mkGlobals {
  clientInstance : option Client;
  built : nat
}.

(** [let clientInstance = null;] *)
Definition initial : Globals := {| clientInstance := None; built := O |}.

Definition getClient (env : Env) (g : Globals) : Client * Globals :=
  match clientInstance g with
  | None =>
      let serverconfig :=
        {| contentServer := SERVER_URL env;
           contentVersion := API_VERSION env;
           channelToken := CHANNEL_TOKEN env;
           beforeSend := false |} in
      let (c, n) := createDeliveryClient serverconfig (built g) in
      (c, {| clientInstance := Some c; built := n |})
  | Some c => (c, g)
  end.

(** [k] calls in a row: the clients returned, in call order, and the state
    afterwards. *)
Fixpoint calls (env : Env) (k : nat) (g : Globals) : list Client * Globals :=
  match k with
  | O => ([], g)
  | S k' =>
      let (c, g1) := getClient env g in
      let (cs, g2) := calls env k' g1 in
      (c :: cs, g2)
  end.

End ServerConfigUtilsDelivery.

(** ** [scripts/utils.js] *)

Module Utils.

Definition getImageUrl (env : Env) (originalUrl : string) : string :=
  if ServerConfigUtils.isAuthNeeded env
  then JS.replace (JS.to_string (NEXT_PUBLIC_SERVER_URL env)) "/api" originalUrl
  else originalUrl.

End Utils.

(** ** The API route that proxies requests to the content server *)

Module ApiHandler.

Import ServerConfigUtils.

(** The incoming request: Node's [req.method], [req.url] (path and query
    string) and the chunks of its body. *)
Record IncomingMessage : Type := mkIncomingMessage {
  method : string;
  url : string;
  body : list string
}.

Inductive Transport : Type :=
| Http
| Https.

(** The outgoing request built by [http.request]/[https.request]:
    [options.headers] is the [Authorization] value or absent. *)
Record ClientRequest : Type := mkClientRequest {
  transport : Transport;
  target : string;
  authorization : option string;
  payload : list string
}.

(** The content server's response as [proxyResponse] shows it. *)
Record ProxyResponse : Type := mkProxyResponse {
  statusCode : Z;
  headers : list (string * string);
  chunks : list string
}.

(** What has been written to [res]. *)
Record ServerResponse : Type := mkServerResponse {
  head : option (Z * list (string * string));
  written : list string;
  ended : bool
}.

(** A response nothing has been written to yet. *)
Definition fresh : ServerResponse :=
  {| head := None; written := []; ended := false |}.

(** [res.writeHead(statusCode, headers); proxyResponse.pipe(res, {end: true})] *)
Definition writeProxyContent (proxyResponse : ProxyResponse) (res : ServerResponse)
  : ServerResponse :=
  let res := {| head := Some (statusCode proxyResponse, headers proxyResponse);
                written := written res;
                ended := ended res |} in
  {| head := head res;
     written := written res ++ chunks proxyResponse;
     ended := true |}.

(** [handleContentRequest(req, res, authValue)].  The content server is
    [upstream]: the response it gives to a request, if any.  Returns the
    request sent, if any, and [res] afterwards. *)
Definition handleContentRequest (env : Env)
    (upstream : ClientRequest -> option ProxyResponse)
    (req : IncomingMessage) (res : ServerResponse) (authValue : option string)
  : option ClientRequest * ServerResponse :=
  if negb (String.eqb (method req) "GET") then (None, res)
  else
    let newURL := JS.replace "/api/" "/" (url req) in
    let oceUrl := JS.to_string (NEXT_PUBLIC_SERVER_URL env) ++ newURL in
    let options := if JS.truthy authValue then authValue else None in
    let proxy :=
      {| transport := if JS.startsWith "https" oceUrl then Https else Http;
         target := oceUrl;
         authorization := options;
         payload := body req |} in
    match upstream proxy with
    | Some proxyResponse => (Some proxy, writeProxyContent proxyResponse res)
    | None => (Some proxy, res)
    end.

(** [handler(req, res)]: resolve the credential when one is needed, then
    hand over.  A rejected [getAuthValue()] has no handler attached, so
    nothing is sent and nothing is written.  Returns also the run of
    [getAuthValue] ([None] when it was not called). *)
Definition handler (env : Env) (io : Io)
    (upstream : ClientRequest -> option ProxyResponse)
    (req : IncomingMessage) (res : ServerResponse) (g : Globals)
  : option (Run (option string)) * (option ClientRequest * ServerResponse) :=
  if isAuthNeeded env then
    let r := getAuthValue env io g in
    match outcome r with
    | Fulfilled authValue =>
        (Some r, handleContentRequest env upstream req res authValue)
    | Rejected _ => (Some r, (None, res))
    end
  else (None, handleContentRequest env upstream req res (Some "")).

End ApiHandler.

(** ** [scripts/services.js] *)

Module Services.

(** JavaScript values as the service code meets them.  Arrays are dense
    lists; an object value is its own enumerable properties in insertion
    order. *)
#[local] Unset Elimination Schemes.
Inductive Value : Type :=
| VUndefined
| VNull
| VBool (b : bool)
| VNum (n : Z)
| VStr (s : string)
| VArr (elems : list Value)
| VObj (props : list (string * Value)).
#[local] Set Elimination Schemes.

Abbreviation Obj := (list (string * Value)).

(** [Array.isArray(v)] *)
Definition isArray (v : Value) : bool :=
  match v with
  | VArr _ => true
  | _ => false
  end.

(** [o[k]] on an object: a missing property reads as [undefined]. *)
Fixpoint get_prop (k : string) (o : Obj) : Value :=
  match o with
  | [] => VUndefined
  | (k', v) :: o' => if String.eqb k k' then v else get_prop k o'
  end.

(** [o[k] = v]: an existing property keeps its place, a new one goes last. *)
Fixpoint set_prop (k : string) (v : Value) (o : Obj) : Obj :=
  match o with
  | [] => [(k, v)]
  | (k', v') :: o' =>
      if String.eqb k k' then (k, v) :: o' else (k', v') :: set_prop k v o'
  end.

(** [v.k] for a property name [k] that no array, string, number or boolean
    carries (here [items] and [totalResults]): [None] is the [TypeError]
    of reading a property of [undefined] or [null]. *)
Definition member (v : Value) (k : string) : option Value :=
  match v with
  | VUndefined | VNull => None
  | VObj o => Some (get_prop k o)
  | _ => Some VUndefined
  end.

(** One turn of the loop of [flattenArray] on the element [arrayElement]:
    an array is flattened into [result] by the recursive call, which is the
    same loop over its elements; anything else is pushed. *)
Fixpoint flattenElement (arrayElement : Value) (result : list Value) : list Value :=
  match arrayElement with
  | VArr inner =>
      fold_left (fun result x => flattenElement x result) inner result
  | _ => result ++ [arrayElement]
  end.

(** [flattenArray(inArray, result)]: the loop over [inArray], threading the
    array [result] that the source mutates in place and returns. *)
Definition flattenArray (inArray : list Value) (result : list Value) : list Value :=
  fold_left (fun result arrayElement => flattenElement arrayElement result)
            inArray result.

(** The spec's words for [flattenArray]: the non-array leaves of a value,
    left to right, at any depth. *)
Fixpoint leaves (v : Value) : list Value :=
  match v with
  | VArr inner => concat (map leaves inner)
  | _ => [v]
  end.

(** The argument of [client.getItems]: [q] is built from [categoryId]. *)
Record Query : Type := mkQuery {
  categoryId : Value;
  limit : Z;
  totalResults : bool
}.

(** The content client as the fan-out sees it: how the promise of the
    [n]-th [getItems] call settles, [Some v] fulfilled with [v], [None]
    rejected. *)
Definition Client : Type := nat -> Query -> option Value.

(** [fetchItemsForCategory(client, categoryId, limit)], issued as call
    number [n]: the value its promise is fulfilled with.  A rejection is
    caught and logged, and [logError] returns [undefined]. *)
Definition fetchItemsForCategory (client : Client) (n : nat)
    (categoryId : Value) (limit : bool) : Value :=
  match client n {| categoryId := categoryId;
                    limit := if limit then 4 else 100;
                    totalResults := true |} with
  | Some topLevelItem => topLevelItem
  | None => VUndefined
  end.

(** Category objects are shared with the caller and mutated: they live in
    a heap, and the array [categories] holds their addresses. *)
Abbreviation Heap := (list Obj).

Inductive PromiseState : Type :=
| Pending
| Fulfilled (v : Value)
| Rejected.

(** The [then] callback of lines 188-207 for the category at address
    [category]: [None] when it throws. *)
Definition then_callback (category : nat) (topLevelItem : Value) (h : Heap)
  : option (Value * Heap) :=
  match h !! category with
  | None => None
  | Some _ =>
      match member topLevelItem "items" with
      | None => None
      | Some items =>
          let h := alter (set_prop "items" items) category h in
          match member topLevelItem "totalResults" with
          | None => None
          | Some total =>
              let h := alter (set_prop "totalResults" total) category h in
              match h !! category with
              | Some o => Some (VObj o, h)
              | None => None
              end
          end
      end
  end.

(** [categories.forEach(...)]: the synchronous part.  For the [n]-th
    category its fetch is issued with the [id] the object has now; the
    result pairs each category with the value its fetch will give.
    [None]: an address without an object. *)
Fixpoint issue (client : Client) (n : nat) (categories : list nat) (h : Heap)
  : option (list (nat * Value)) :=
  match categories with
  | [] => Some []
  | category :: rest =>
      match h !! category with
      | None => None
      | Some o =>
          let v := fetchItemsForCategory client n (get_prop "id" o) true in
          match issue client (S n) rest h with
          | Some ps => Some ((category, v) :: ps)
          | None => None
          end
      end
  end.

(** The event loop while the fetches come back. *)
Record Loop : Type := mkLoop {
  heap : Heap;
  promises : list PromiseState
}.

(** The fetch of promise [i] has completed: its callback runs and settles
    the promise.  A promise settles once. *)
Definition on_complete (issued : list (nat * Value)) (st : Loop) (i : nat) : Loop :=
  match issued !! i, promises st !! i with
  | Some (category, topLevelItem), Some Pending =>
      match then_callback category topLevelItem (heap st) with
      | Some (v, h) =>
          {| heap := h; promises := <[i := Fulfilled v]> (promises st) |}
      | None =>
          {| heap := heap st; promises := <[i := Rejected]> (promises st) |}
      end
  | _, _ => st
  end.

(** How a promise for an array stands; [Throws] is for a call that throws
    before it returns a promise. *)
Inductive Settled : Type :=
| StillPending
| Resolves (vs : list Value)
| Rejects
| Throws.

Definition is_rejected (p : PromiseState) : bool :=
  match p with
  | Rejected => true
  | _ => false
  end.

Fixpoint values (ps : list PromiseState) : option (list Value) :=
  match ps with
  | [] => Some []
  | Fulfilled v :: ps' =>
      match values ps' with
      | Some vs => Some (v :: vs)
      | None => None
      end
  | _ :: _ => None
  end.

(** [Promise.all(promises)]: rejected as soon as one promise is, fulfilled
    with the values in the order of [promises] once all are. *)
Definition Promise_all (ps : list PromiseState) : Settled :=
  if existsb is_rejected ps then Rejects
  else match values ps with
       | Some vs => Resolves vs
       | None => StillPending
       end.

(** [addItemsToCategories(client, categories)] with the fetches completing
    in the order [schedule] (indices into [categories]): how the returned
    promise stands afterwards, and the heap.  An element of [categories]
    that is no object makes [category.id] throw inside [forEach]. *)
Definition addItemsToCategories (client : Client) (schedule : list nat)
    (categories : list nat) (h : Heap) : Settled * Heap :=
  match issue client O categories h with
  | None => (Throws, h)
  | Some issued =>
      let st0 := {| heap := h; promises := replicate (length issued) Pending |} in
      let st := fold_left (on_complete issued) schedule st0 in
      match Promise_all (promises st) with
      | Resolves arrayOfItems => (Resolves (flattenArray arrayOfItems []), heap st)
      | other => (other, heap st)
      end
  end.

(** The category [o] after lines 190-191 have stored what the fetch
    returned in [topLevelItem]; line 204 copies this object. *)
Definition with_items (topLevelItem : Obj) (o : Obj) : Obj :=
  set_prop "totalResults" (get_prop "totalResults" topLevelItem)
    (set_prop "items" (get_prop "items" topLevelItem) o).

(** Two category objects that can differ only in what [items] and
    [totalResults] hold: storing the same two values makes them equal. *)
Definition same_but_items (o' o : Obj) : Prop :=
  forall items total,
    set_prop "totalResults" total (set_prop "items" items o')
    = set_prop "totalResults" total (set_prop "items" items o).

(** The state of the event loop at any moment of a run in which every
    fetch gives an object: the categories of the initial heap [h] are still
    there, changed at most in [items] and [totalResults]; no promise is
    rejected; a fulfilled promise holds the copy of its own category with
    the items of its own fetch. *)
Record Loop_ok (h : Heap) (issued : list (nat * Value)) (st : Loop) : Prop :=
  mkLoop_ok {
  ok_length : length (promises st) = length issued;
  ok_heap : forall r o, h !! r = Some o ->
      exists o', heap st !! r = Some o' /\ same_but_items o' o;
  ok_promises : forall i r topLevelItem o,
      issued !! i = Some (r, VObj topLevelItem) -> h !! r = Some o ->
      promises st !! i = Some Pending
      \/ promises st !! i = Some (Fulfilled (VObj (with_items topLevelItem o)))
}.

(** Every fetch issued is for a category of the heap and gives an object. *)
Definition issued_ok (h : Heap) (issued : list (nat * Value)) : Prop :=
  forall j r v, issued !! j = Some (r, v) ->
    exists topLevelItem o, v = VObj topLevelItem /\ h !! r = Some o.

(** The query that [fetchItemsForCategory] sends for the category [o] on
    the home page (four items). *)
Definition query_for (o : Obj) : Query :=
  {| categoryId := get_prop "id" o; limit := 4; totalResults := true |}.

(** The result of the fan-out in the spec's words: as long as the input,
    and at every position the copy of the category at that position,
    carrying what the fetch at that position returned. *)
Definition in_input_order (client : Client) (categories : list nat) (h : Heap)
    (result : list Value) : Prop :=
  length result = length categories
  /\ forall i r o, categories !! i = Some r -> h !! r = Some o ->
       exists topLevelItem,
         client i (query_for o) = Some (VObj topLevelItem)
         /\ result !! i = Some (VObj (with_items topLevelItem o)).

(** Promise [i] has been fulfilled with the copy of its category. *)
Definition fulfilled_at (h : Heap) (issued : list (nat * Value)) (st : Loop)
    (i : nat) : Prop :=
  forall r topLevelItem o,
    issued !! i = Some (r, VObj topLevelItem) -> h !! r = Some o ->
    promises st !! i = Some (Fulfilled (VObj (with_items topLevelItem o))).

End Services.

(** ** Concrete configurations and inputs used by the examples *)

Module Examples.

Import ServerConfigUtils.

(** OAuth: [CLIENT_ID] and its companions are set, [AUTH] is not. *)
Definition env_oauth : Env :=
  {| AUTH := None;
     CLIENT_ID := Some "id";
     CLIENT_SECRET := Some "secret";
     CLIENT_SCOPE_URL := Some "https://host/urn:opc:cec:all";
     IDCS_URL := Some "https://idcs";
     SERVER_URL := Some "https://host";
     API_VERSION := Some "v1.1";
     CHANNEL_TOKEN := Some "token";
     PREVIEW := None;
     IS_BROWSER := None;
     window_location_origin := "http://localhost:3000";
     token_endpoint := Some "https://idcs/oauth2/v1/token" |}.

(** A fixed [Authorization] value. *)
Definition env_static : Env :=
  {| AUTH := Some "Basic dXNlcjpwdw==";
     CLIENT_ID := None;
     CLIENT_SECRET := None;
     CLIENT_SCOPE_URL := None;
     IDCS_URL := None;
     SERVER_URL := Some "https://host";
     API_VERSION := Some "v1.1";
     CHANNEL_TOKEN := Some "token";
     PREVIEW := None;
     IS_BROWSER := None;
     window_location_origin := "http://localhost:3000";
     token_endpoint := None |}.

(** A public channel: no authentication. *)
Definition env_public : Env :=
  {| AUTH := None;
     CLIENT_ID := None;
     CLIENT_SECRET := None;
     CLIENT_SCOPE_URL := None;
     IDCS_URL := None;
     SERVER_URL := Some "https://host";
     API_VERSION := Some "v1.1";
     CHANNEL_TOKEN := Some "token";
     PREVIEW := None;
     IS_BROWSER := None;
     window_location_origin := "http://localhost:3000";
     token_endpoint := None |}.

(** The token request that [env_oauth] produces. *)
Definition rq_oauth : TokenRequest :=
  {| restURL := "https://idcs/oauth2/v1/token";
     authString := "id:secret";
     scope := "https://host/urn:opc:cec:all" |}.

(** A cached token that expires at t = 20 s, and the first call, at t = 0,
    that leaves the cache in this state. *)
Definition cached_until_20s : Globals :=
  {| globalAuthValue := Some "Bearer old";
     globalAuthExpiry := Some (JS.Date_ms 20000) |}.

Definition io_first : Io :=
  {| date_new := 0; reply := Json (Some "old") (Some 20000); date_now := 0 |}.

(** The endpoint answers with a token valid for an hour. *)
Definition one_hour_token : Reply := Json (Some "new") (Some 3600).

(** A first call at t = 10 s answered with that token. *)
Definition io_token : Io :=
  {| date_new := 10000; reply := one_hour_token; date_now := 10050 |}.

(** A GET through the proxy, and a content server that answers every
    request with the same small image. *)
Definition req_get : ApiHandler.IncomingMessage :=
  {| ApiHandler.method := "GET";
     ApiHandler.url := "/api/foo/bar?x=1";
     ApiHandler.body := [] |}.

Definition upstream_jpeg (rq : ApiHandler.ClientRequest)
  : option ApiHandler.ProxyResponse :=
  Some {| ApiHandler.statusCode := 200;
          ApiHandler.headers := [("content-type", "image/jpeg")];
          ApiHandler.chunks := ["JFIF"; "..."] |}.

(** Two categories on the heap; the array handed to the fan-out names the
    first one twice.  The client answers call [n] about category [id] with
    two items and a total. *)
Definition two_categories : Services.Heap :=
  [ [("id", Services.VStr "a"); ("name", Services.VStr "Animals")];
    [("id", Services.VStr "b")] ].

Definition client_ok : Services.Client :=
  fun n q =>
    Some (Services.VObj
            [("items", Services.VArr [Services.categoryId q;
                                      Services.VNum (Z.of_nat n)]);
             ("totalResults", Services.VNum 7)]).

End Examples.

(** ** [next.config.js] *)

Module NextConfig.

(** [getBaseUrl()], reading [process.env.BASE_URL]. *)
Definition getBaseUrl (BASE_URL : option string) : string :=
  let baseUrl := "" in
  if JS.truthy BASE_URL then
    if JS.startsWith "/" (JS.to_string BASE_URL)
    then JS.to_string BASE_URL
    else "/" ++ JS.to_string BASE_URL
  else baseUrl.

End NextConfig.

(** ** More of JavaScript on the values of [scripts/services.js] *)

Module Values.

Import Services.

(** [ToBoolean]. *)
Definition truthy (v : Value) : bool :=
  match v with
  | VUndefined | VNull => false
  | VBool b => b
  | VNum n => negb (n =? 0)
  | VStr s => negb (String.eqb s "")
  | VArr _ | VObj _ => true
  end.

(** [typeof v]. *)
Definition typeof (v : Value) : string :=
  match v with
  | VUndefined => "undefined"
  | VNull => "object"
  | VBool _ => "boolean"
  | VNum _ => "number"
  | VStr _ => "string"
  | VArr _ | VObj _ => "object"
  end.

(** [ToString], as template literals and [+] with a string apply it.
    Numbers are integers below 1e21 in size, which print in decimal; an
    array prints its elements joined by commas, [undefined] and [null]
    elements as nothing; a plain object prints as [[object Object]]. *)
Fixpoint to_text (v : Value) : string :=
  match v with
  | VUndefined => "undefined"
  | VNull => "null"
  | VBool true => "true"
  | VBool false => "false"
  | VNum n => NilZero.string_of_int (Z.to_int n)
  | VStr s => s
  | VArr elems =>
      String.concat ","
        (map (fun x => match x with
                       | VUndefined | VNull => ""
                       | _ => to_text x
                       end) elems)
  | VObj _ => "[object Object]"
  end.

(** A credential as a value: [null] or a string. *)
Definition of_credential (c : option string) : Value :=
  match c with
  | None => VNull
  | Some s => VStr s
  end.

End Values.

(** ** [scripts/server-config-utils.js]: the [beforeSend] hook *)

Module BeforeSend.

Import ServerConfigUtils.

(** The request description the SDK hands to the hook: its [headers], an
    object or absent, and the properties the hook does not touch. *)
Record Param : Type := mkParam {
  headers : option Services.Obj;
  others : Services.Obj
}.

(** How the promise returned by the hook stands once [getAuthValue] has
    settled. *)
Inductive Hook : Type :=
| HookResolves (v : bool) (param : Param)
| HookNeverSettles (param : Param).

(** [beforeSendCallback(param)].  [getAuthValue] is an async function: it
    cannot throw into the [try], and a rejection of its promise has no
    handler, so neither [resolve] nor [reject] is then called. *)
Definition beforeSendCallback (env : Env) (io : Io) (param : Param) (g : Globals)
  : Hook * Run (option string) :=
  let r := getAuthValue env io g in
  match outcome r with
  | Fulfilled authValue =>
      let h := match headers param with
               | Some h => h
               | None => []
               end in
      let h := Services.set_prop "authorization" (Values.of_credential authValue) h in
      (HookResolves true {| headers := Some h; others := others param |}, r)
  | Rejected _ => (HookNeverSettles param, r)
  end.

End BeforeSend.

(** ** [scripts/services.js]: logging *)

Module Logging.

Import Services.

(** [logError(message, error)]: the calls of [console.log] it makes, each
    with its arguments. *)
Definition logError (message : string) (error : Value) : list (list Value) :=
  if Values.truthy error
     && Values.truthy (VStr (Values.typeof
                               (match member error "statusMessage" with
                                | Some v => v
                                | None => VUndefined
                                end)))
  then [[VStr (message ++ " : ");
         match member error "statusMessage" with
         | Some v => v
         | None => VUndefined
         end]]
  else if Values.truthy error then [[VStr message]]
  else [].

End Logging.

(** ** [scripts/services.js]: rendition URLs and the image grid data *)

Module Renditions.

Import Services.

(** A step that can throw a [TypeError]: [None] is the throw. *)
Definition andThen {A B} (m : option A) (k : A -> option B) : option B :=
  match m with
  | Some a => k a
  | None => None
  end.

Declare Scope js_scope.
Delimit Scope js_scope with js.
Notation "'let?' x := m 'in' k" := (andThen m (fun x => k))
  (at level 10, x name, m at level 100, k at level 200) : js_scope.
Local Open Scope js_scope.

(** [v[0]]. *)
Definition first (v : Value) : option Value :=
  match v with
  | VUndefined | VNull => None
  | VArr elems => Some (hd VUndefined elems)
  | VObj o => Some (get_prop "0" o)
  | VStr (String c _) => Some (VStr (String c ""))
  | _ => Some VUndefined
  end.

(** [v === s] for a string [s]. *)
Definition is_string (v : Value) (s : string) : bool :=
  match v with
  | VStr t => String.eqb t s
  | _ => false
  end.

(** [elems.filter((item) => item.k === s)]; reading [item.k] can throw. *)
Fixpoint filter_items (k s : string) (elems : list Value) : option (list Value) :=
  match elems with
  | [] => Some []
  | item :: rest =>
      let? v := member item k in
      let? kept := filter_items k s rest in
      Some (if is_string v s then item :: kept else kept)
  end.

(** [v.filter(...)]: only an array has the method. *)
Definition filter_by (k s : string) (v : Value) : option Value :=
  match v with
  | VArr elems => let? kept := filter_items k s elems in Some (VArr kept)
  | _ => None
  end.

(** [getImageUrl(originalUrl)] of [scripts/utils.js] on any value: without
    authentication the argument comes back as it is; with it, [replace] is
    called on it, which only a string has. *)
Definition getImageUrl (env : Env) (originalUrl : Value) : option Value :=
  if ServerConfigUtils.isAuthNeeded env then
    match originalUrl with
    | VStr s => Some (VStr (Utils.getImageUrl env s))
    | _ => None
    end
  else Some originalUrl.

(** [urls.k += text]. *)
Definition append_to (k : string) (text : string) (urls : Obj) : Obj :=
  set_prop k (VStr (Values.to_text (get_prop k urls) ++ text)) urls.





Section Platform.

(** [String.prototype.toLowerCase], the platform's. *)
Variable toLowerCase : string -> string.

(** [s.toLowerCase()]: only a string has the method. *)
Definition lower (v : Value) : option string :=
  match v with
  | VStr s => Some (toLowerCase s)
  | _ => None
  end.

(** [addRendition(urls, rendition, formatstr)]: [urls] afterwards. *)
Definition addRendition (env : Env) (urls : Obj) (rendition : Value)
    (formatstr : string) : option Obj :=
  let? formats := member rendition "formats" in
  let? matching := filter_by "format" formatstr formats in
  let? format := first matching in
  let? links := member format "links" in
  let? selves := filter_by "rel" "self" links in
  let? self := first selves in
  let? href := member self "href" in
  let? url := getImageUrl env href in
  let? metadata := member format "metadata" in
  let? width := member metadata "width" in
  let entry := (Values.to_text url ++ " " ++ Values.to_text width ++ "w,")%string in
  if String.eqb formatstr "jpg" then
    let? name := member rendition "name" in
    let? key := lower name in
    let urls := set_prop key url urls in
    Some (append_to "jpgSrcset" entry urls)
  else
    Some (append_to "srcset" entry urls).

(** The body of the [forEach] of line 85 over the renditions. *)
Fixpoint addRenditions (env : Env) (urls : Obj) (renditions : list Value)
  : option Obj :=
  match renditions with
  | [] => Some urls
  | rendition :: rest =>
      let? urls := addRendition env urls rendition "jpg" in
      let? urls := addRendition env urls rendition "webp" in
      addRenditions env urls rest
  end.

(** [getSourceSet(asset)]. *)
Definition getSourceSet (env : Env) (asset : Value) : option Obj :=
  let urls := [] in
  let urls := set_prop "srcset" (VStr "") urls in
  let urls := set_prop "jpgSrcset" (VStr "") urls in
  let? fields := member asset "fields" in
  let? urls :=
    if Values.truthy fields then
      let? renditions := member fields "renditions" in
      if Values.truthy renditions then
        match renditions with
        | VArr elems => addRenditions env urls elems
        | _ => None
        end
      else Some urls
    else Some urls in
  let? native := member fields "native" in
  let? links := member native "links" in
  let? link := first links in
  let? href := member link "href" in
  let? metadata := member fields "metadata" in
  let? width := member metadata "width" in
  let urls := append_to "srcset"
                (Values.to_text href ++ " " ++ Values.to_text width ++ "w") urls in
  let urls := set_prop "native" href urls in
  let urls := set_prop "width" width urls in
  let? height := member metadata "height" in
  let urls := set_prop "height" height urls in
  Some urls.

(** [item.renditionUrls = getSourceSet(item)]: the item afterwards. *)
Definition withRenditionUrls (env : Env) (item : Value) : option Value :=
  let? urls := getSourceSet env item in
  match item with
  | VObj o => Some (VObj (set_prop "renditionUrls" (VObj urls) o))
  | _ => None
  end.

(** [items.forEach(...)] with that body: the items afterwards. *)
Fixpoint withRenditionUrlsAll (env : Env) (items : list Value)
  : option (list Value) :=
  match items with
  | [] => Some []
  | item :: rest =>
      let? item := withRenditionUrls env item in
      let? rest := withRenditionUrlsAll env rest in
      Some (item :: rest)
  end.

(** How the promise of a page-data function settles. *)
Inductive PageData : Type :=
| Data (v : Value)
| NoData.                      (* rejected *)

(** [getImageGridPageData(categoryId)], with the content client that
    [getClient()] returns; its fetch is the client's first call. *)
Definition getImageGridPageData (env : Env) (client : Client)
    (categoryId : Value) : PageData :=
  let topLevelItem := fetchItemsForCategory client O categoryId false in
  match (let? totalResults := member topLevelItem "totalResults" in
         let? items := member topLevelItem "items" in
         let? items := match items with
                       | VArr elems => withRenditionUrlsAll env elems
                       | _ => None
                       end in
         Some (VObj [("totalResults", totalResults); ("items", VArr items)]))
  with
  | Some data => Data data
  | None => NoData
  end.



End Platform.

End Renditions.

(** ** Inputs for the examples on renditions *)

Module DataExamples.

Import Services.

(** ASCII lower-casing, which is what [toLowerCase] does on ASCII names. *)
Definition lower_char (c : ascii) : ascii :=
  let n := nat_of_ascii c in
  if (Nat.leb 65 n && Nat.leb n 90)%bool then ascii_of_nat (n + 32) else c.

Fixpoint lower_ascii (s : string) : string :=
  match s with
  | EmptyString => EmptyString
  | String c s' => String (lower_char c) (lower_ascii s')
  end.

Definition format (f href : string) (w : Z) : Value :=
  VObj [("format", VStr f);
        ("links", VArr [VObj [("rel", VStr "self"); ("href", VStr href)]]);
        ("metadata", VObj [("width", VNum w)])].

Definition rendition (name : string) (w : Z) : Value :=
  VObj [("name", VStr name);
        ("formats",
         VArr [format "webp" ("https://host/r/" ++ name ++ ".webp") w;
               format "jpg" ("https://host/r/" ++ name ++ ".jpg") w])].

(** A rendition that has no [webp] format. *)
Definition rendition_jpg_only : Value :=
  VObj [("name", VStr "Thumbnail");
        ("formats", VArr [format "jpg" "https://host/r/Thumbnail.jpg" 100])].

Definition asset_with (renditions : Value) : Value :=
  VObj [("id", VStr "CONT1");
        ("fields",
         VObj [("renditions", renditions);
               ("native",
                VObj [("links", VArr [VObj [("href", VStr "https://host/n/CONT1")]])]);
               ("metadata", VObj [("width", VNum 4000); ("height", VNum 3000)])])].

Definition asset : Value :=
  asset_with (VArr [rendition "Small" 150; rendition "Large" 1200]).

(** The items of one category as the content server returns them. *)
Definition client_items : Client :=
  fun n q => Some (VObj [("items", VArr [asset]); ("totalResults", VNum 1)]).

End DataExamples.

(** ** [scripts/services.js]: the categories of all taxonomies and the home
    page data *)

Module HomePage.

Import Services Renditions.
Local Open Scope js_scope.

(** The content client: how [getTaxonomies()] settles, how the [n]-th call
    of [queryTaxonomyCategories] settles for an id, and the item fetches of
    [Services.Client]; [None] is a rejection. *)
Record ContentClient : Type := mkContentClient {
  getTaxonomies : option Value;
  queryTaxonomyCategories : nat -> string -> option Value;
  getItems : Client
}.

(** How a promise for one value stands. *)
Inductive Outcome : Type :=
| Waiting
| Returns (v : Value)
| Fails.

(** [fetchCategoriesForTaxonomyId(client, taxonomyId)], issued as call
    number [n]: what its promise is fulfilled with; a rejection is caught
    and logged and gives [undefined]. *)
Definition fetchCategoriesForTaxonomyId (client : ContentClient) (n : nat)
    (taxonomyId : Value) : Value :=
  match queryTaxonomyCategories client n (Values.to_text taxonomyId) with
  | Some topLevelItem => topLevelItem
  | None => VUndefined
  end.

(** [items.map((taxonomy) => taxonomy.id)]. *)
Fixpoint taxonomyIds (items : list Value) : option (list Value) :=
  match items with
  | [] => Some []
  | taxonomy :: rest =>
      let? id := member taxonomy "id" in
      let? ids := taxonomyIds rest in
      Some (id :: ids)
  end.

(** The fetches of lines 152-159, numbered from [n]. *)
Fixpoint issueCategories (client : ContentClient) (n : nat) (ids : list Value)
  : list Value :=
  match ids with
  | [] => []
  | id :: rest =>
      fetchCategoriesForTaxonomyId client n id
      :: issueCategories client (S n) rest
  end.

(** The fetch of promise [i] has completed:
    [.then((categoriesTopItem) => categoriesTopItem.items)] settles it. *)
Definition settleCategories (issued : list Value) (ps : list PromiseState)
    (i : nat) : list PromiseState :=
  match issued !! i, ps !! i with
  | Some categoriesTopItem, Some Pending =>
      match member categoriesTopItem "items" with
      | Some items => <[i := Fulfilled items]> ps
      | None => <[i := Rejected]> ps
      end
  | _, _ => ps
  end.

(** [fetchAllTaxonomiesCategories(client)] with the category fetches
    completing in the order [schedule].  Every rejection and every throw on
    the way ends in the [catch] of line 167, whose [logError] gives
    [undefined]. *)
Definition fetchAllTaxonomiesCategories (client : ContentClient)
    (schedule : list nat) : Outcome :=
  match getTaxonomies client with
  | None => Returns VUndefined
  | Some topLevelItem =>
      match (let? items := member topLevelItem "items" in
             match items with
             | VArr elems => taxonomyIds elems
             | _ => None
             end) with
      | None => Returns VUndefined
      | Some ids =>
          let issued := issueCategories client O ids in
          let ps := fold_left (settleCategories issued) schedule
                      (replicate (length issued) Pending) in
          match Promise_all ps with
          | Resolves arrayOfCategoryArray =>
              Returns (VArr (flattenArray arrayOfCategoryArray []))
          | StillPending => Waiting
          | _ => Returns VUndefined
          end
      end
  end.

(** The elements of an array as the properties of an object: [{...array}]. *)
Fixpoint indexed (n : nat) (elems : list Value) : Obj :=
  match elems with
  | [] => []
  | x :: rest => (Values.to_text (VNum (Z.of_nat n)), x) :: indexed (S n) rest
  end.

(** The array [categories] laid out for [addItemsToCategories]: one heap
    cell per element, in order.  An object is its cell.  An array is an
    object too, its elements stored under their indices. *)
Definition cell (category : Value) : Obj :=
  match category with
  | VObj o => o
  | VArr elems => indexed O elems
  | _ => []
  end.

(** [undefined] and [null] have no cell to point at, so that reading
    [category.id] throws: their address is past the heap. *)
Definition address (size i : nat) (category : Value) : nat :=
  match category with
  | VUndefined | VNull => size
  | _ => i
  end.

(** A boolean, number or string reads [id] as [undefined], as its empty
    cell does, but the assignment [category.items = ...] throws on it (the
    module is strict code): the callback of its fetch fails, as it does for a
    fetch that gave [undefined]. *)
Definition isPrimitive (category : Value) : bool :=
  match category with
  | VBool _ | VNum _ | VStr _ => true
  | _ => false
  end.

Definition itemsClient (client : ContentClient) (categories : list Value)
  : Client :=
  fun n q =>
    match categories !! n with
    | Some category =>
        if isPrimitive category then None else getItems client n q
    | None => getItems client n q
    end.

Section Platform.

Variable toLowerCase : string -> string.

(** The loop of lines 236-238 over the flattened items, seen from the value
    that holds them: every object at a leaf gets its [renditionUrls]; a leaf
    for which [getSourceSet] throws ends the loop. *)
Fixpoint enrich (env : Env) (v : Value) : option Value :=
  match v with
  | VArr elems =>
      let? elems :=
        (fix all (l : list Value) : option (list Value) :=
           match l with
           | [] => Some []
           | x :: rest =>
               let? x := enrich env x in
               let? rest := all rest in
               Some (x :: rest)
           end) elems in
      Some (VArr elems)
  | _ => withRenditionUrls toLowerCase env v
  end.

(** The callback of lines 230-240 on the categories that
    [addItemsToCategories] resolved with. *)
Fixpoint withItemUrls (env : Env) (categories : list Value)
  : option (list Value) :=
  match categories with
  | [] => Some []
  | category :: rest =>
      let? items := member category "items" in
      let? items := enrich env items in
      let? rest := withItemUrls env rest in
      match category with
      | VObj o => Some (VObj (set_prop "items" items o) :: rest)
      | _ => Some (category :: rest)
      end
  end.

(** [getHomePageData()], with the content client that [getClient()]
    returns; the category fetches complete in the order [schedule1], the
    item fetches in the order [schedule2]. *)
Definition getHomePageData (env : Env) (client : ContentClient)
    (schedule1 schedule2 : list nat) : Outcome :=
  match fetchAllTaxonomiesCategories client schedule1 with
  | Waiting => Waiting
  | Fails => Fails
  | Returns (VArr initialCategories) =>
      let size := length initialCategories in
      match addItemsToCategories (itemsClient client initialCategories)
              schedule2 (imap (address size) initialCategories)
              (map cell initialCategories) with
      | (Resolves categories, _) =>
          match withItemUrls env categories with
          | Some categories => Returns (VObj [("categories", VArr categories)])
          | None => Fails
          end
      | (StillPending, _) => Waiting
      | (_, _) => Fails
      end
  | Returns _ => Fails
  end.

End Platform.

End HomePage.

(** ** [pages/category/[id].jsx]: paths and props of the category pages *)

Module CategoryPage.

Import Services Renditions HomePage.
Local Open Scope js_scope.

(** [s.split(sep)] for a separator of one character. *)
Fixpoint split (sep : ascii) (s : string) : list string :=
  match s with
  | EmptyString => [EmptyString]
  | String c s' =>
      if Ascii.eqb c sep then EmptyString :: split sep s'
      else match split sep s' with
           | piece :: pieces => String c piece :: pieces
           | [] => [String c EmptyString]
           end
  end.

(** [categories.map((category) => ({ params: { id: ... } }))]. *)
Fixpoint paths (categories : list Value) : option (list Value) :=
  match categories with
  | [] => Some []
  | category :: rest =>
      let? id := member category "id" in
      let? name := member category "name" in
      let? rest := paths rest in
      Some (VObj [("params",
                   VObj [("id", VStr (Values.to_text id ++ "-"
                                      ++ Values.to_text name))])]
            :: rest)
  end.

(** [getStaticPaths()]. *)
Definition getStaticPaths (client : ContentClient) (schedule : list nat)
  : Outcome :=
  match fetchAllTaxonomiesCategories client schedule with
  | Returns (VArr categories) =>
      match paths categories with
      | Some ps => Returns (VObj [("paths", VArr ps); ("fallback", VBool true)])
      | None => Fails
      end
  | Returns _ => Fails
  | other => other
  end.

(** Whether the character occurs in the text. *)
Fixpoint occurs (c : ascii) (s : string) : bool :=
  match s with
  | EmptyString => false
  | String x s' => Ascii.eqb x c || occurs c s'
  end.

(** The text before the first occurrence of the character, all of it when
    there is none. *)
Fixpoint before (c : ascii) (s : string) : string :=
  match s with
  | EmptyString => EmptyString
  | String x s' => if Ascii.eqb x c then EmptyString else String x (before c s')
  end.

Section Platform.

Variable toLowerCase : string -> string.

(** [getStaticProps(context)] for [context.params.id = id]. *)
Definition getStaticProps (env : Env) (client : Client) (id : string)
  : Outcome :=
  let arr := split "-" id in
  let categoryName := match arr with
                      | _ :: name :: _ => VStr name
                      | _ => VUndefined
                      end in
  let categoryId := match arr with
                    | first :: _ => VStr first
                    | [] => VUndefined
                    end in
  match getImageGridPageData toLowerCase env client categoryId with
  | Data data =>
      Returns (VObj [("props", VObj [("data", data);
                                     ("categoryName", categoryName)])])
  | NoData => Fails
  end.

End Platform.

(** The slideshow of the page: [this.state.currentImage], a number that can
    be [NaN], and whether [body] has the class [modal-open]. *)
Record Slideshow : Type := mkSlideshow {
  currentImage : option Z;
  modalOpen : bool
}.

(** [this.state = { currentImage: -1 }]. *)
Definition closed : Slideshow :=
  {| currentImage := Some (-1); modalOpen := false |}.

(** [a === b] on numbers: [NaN] equals nothing. *)
Definition num_eq (a b : option Z) : bool :=
  match a, b with
  | Some x, Some y => x =? y
  | _, _ => false
  end.

(** [handlePrevNextClick(e, increment)] with [data.totalResults], a number
    or [undefined] ([None], which makes [totalResults - 1] [NaN]). *)
Definition handlePrevNextClick (totalResults : option Z) (increment : bool)
    (st : Slideshow) : Slideshow :=
  if (num_eq (currentImage st) (Some 0) && negb increment)
     || (num_eq (currentImage st) (JS.num_sub totalResults (Some 1)) && increment)
  then st
  else {| currentImage := if increment
                          then JS.num_add (currentImage st) (Some 1)
                          else JS.num_sub (currentImage st) (Some 1);
          modalOpen := modalOpen st |}.

(** [handleCloseClick(e)]. *)
Definition handleCloseClick (st : Slideshow) : Slideshow :=
  {| currentImage := Some (-1); modalOpen := false |}.

(** [handleKeypressFunction(e)] for [e.keyCode = keyCode]. *)
Definition handleKeypressFunction (totalResults : option Z) (keyCode : Z)
    (st : Slideshow) : Slideshow :=
  if num_eq (currentImage st) (Some (-1)) then st
  else if keyCode =? 37 then handlePrevNextClick totalResults false st
  else if keyCode =? 39 then handlePrevNextClick totalResults true st
  else if keyCode =? 27 then handleCloseClick st
  else st.

(** A run of key presses. *)
Definition presses (totalResults : option Z) (keyCodes : list Z)
    (st : Slideshow) : Slideshow :=
  fold_left (fun st keyCode => handleKeypressFunction totalResults keyCode st)
            keyCodes st.

End CategoryPage.

(** * Properties *)

(** ** The credential resolver and the token cache *)

Section TokenCache.

Import ServerConfigUtils.

Ltac run := unfold getAuthValue, getBearerAuth, bind, read, ret,
  set_globalAuthValue, set_globalAuthExpiry, fetch_json; cbn.

(** With [AUTH] unset and [CLIENT_ID] set, a call whose test of line 113
    is false returns the cached value, touches nothing and sends nothing. *)
Lemma getAuthValue_keeps (env : Env) (io : Io) (g : Globals) :
  JS.truthy (AUTH env) = false ->
  JS.truthy (CLIENT_ID env) = true ->
  refresh_test g (date_new io) = false ->
  getAuthValue env io g = mkRun (Fulfilled (globalAuthValue g)) g [].
Proof.
  intros Ha Hc Ht. run. rewrite Ha, Hc. cbn. rewrite Ht. cbn.
  destruct g; reflexivity.
Qed.

(** With [AUTH] unset, [CLIENT_ID] set and a well-formed endpoint URL, a
    call whose test of line 113 is true sends exactly one token request; on
    a JSON reply it stores and returns the new credential, and the expiry is
    [Date.now()] plus the reply's [expires_in], taken as it comes. *)
Lemma getAuthValue_refreshes (env : Env) (io : Io) (g : Globals)
    (u : string) (tok : option string) (exp : option Z) :
  JS.truthy (AUTH env) = false ->
  JS.truthy (CLIENT_ID env) = true ->
  token_endpoint env = Some u ->
  refresh_test g (date_new io) = true ->
  reply io = Json tok exp ->
  exists rq,
    restURL rq = u
    /\ getAuthValue env io g =
      mkRun (Fulfilled (Some ("Bearer " ++ JS.to_string tok)))
            {| globalAuthValue := Some ("Bearer " ++ JS.to_string tok);
               globalAuthExpiry :=
                 Some (JS.new_Date (JS.num_add (Some (date_now io)) exp)) |}
            [rq].
Proof.
  intros Ha Hc Hu Ht Hr.
  exists {| restURL := u;
            authString := JS.to_string (CLIENT_ID env) ++ ":"
                          ++ JS.to_string (CLIENT_SECRET env);
            scope := JS.to_string (CLIENT_SCOPE_URL env) |}.
  split; [reflexivity |].
  run. rewrite Ha, Hc. cbn. rewrite Ht. cbn.
  rewrite Hu. cbn. rewrite Hr. cbn. reflexivity.
Qed.

(** The test of line 113 on a cache that holds a credential and a valid
    expiry [e]: it asks for a refresh exactly when the current time is
    more than five seconds before [e]. *)
Lemma refresh_test_cached (v : string) (e now : Z) :
  v <> "" ->
  refresh_test {| globalAuthValue := Some v;
                  globalAuthExpiry := Some (JS.Date_ms e) |} now
  = (e - 5000 >? now).
Proof.
  intros Hv. unfold refresh_test, FIVE_SECONDS_MS. cbn.
  destruct (String.eqb_spec v ""); [contradiction | reflexivity].
Qed.

(** C1 (the code departs from the claim).  With a credential cached until
    t = 20 s (the state a first call leaves behind): a call at t = 10 s,
    more than five seconds before the expiry, sends a token request and
    returns the new credential, where the claim says the cached one is
    returned without a fetch; a call at t = 16 s, within five seconds of the
    expiry, and a call at t = 30 s, after it, return the cached credential
    and send nothing, where the claim says one refresh is performed. *)
Theorem getAuthValue_threshold_inverted :
  final (getAuthValue Examples.env_oauth Examples.io_first initial)
  = Examples.cached_until_20s
  /\ getAuthValue Examples.env_oauth
    {| date_new := 10000; reply := Examples.one_hour_token; date_now := 10050 |}
    Examples.cached_until_20s
  = mkRun (Fulfilled (Some "Bearer new"))
          {| globalAuthValue := Some "Bearer new";
             globalAuthExpiry := Some (JS.Date_ms 13650) |}
          [Examples.rq_oauth]
  /\ getAuthValue Examples.env_oauth
       {| date_new := 16000; reply := Examples.one_hour_token; date_now := 16050 |}
       Examples.cached_until_20s
     = mkRun (Fulfilled (Some "Bearer old")) Examples.cached_until_20s []
  /\ getAuthValue Examples.env_oauth
       {| date_new := 30000; reply := Examples.one_hour_token; date_now := 30050 |}
       Examples.cached_until_20s
     = mkRun (Fulfilled (Some "Bearer old")) Examples.cached_until_20s [].
Proof. repeat split; vm_compute; reflexivity. Qed.

(** C2 as stated fails.  From the initial state a first call at t = 0
    caches a token with [expires_in] 86400; a second call at t = 1 s finds
    the test of line 113 true, and its fetch is rejected: the error reaches
    the caller, but the cached credential is now the empty string while the
    expiry is the old one. *)
Lemma failed_refresh_changes_cache :
  let g := final (getAuthValue Examples.env_oauth
                    {| date_new := 0; reply := Json (Some "t") (Some 86400);
                       date_now := 0 |} initial) in
  let r := getAuthValue Examples.env_oauth
             {| date_new := 1000; reply := FetchRejects; date_now := 1000 |} g in
  g = {| globalAuthValue := Some "Bearer t";
         globalAuthExpiry := Some (JS.Date_ms 86400) |}
  /\ outcome r = Rejected FetchError
  /\ final r = {| globalAuthValue := Some "";
                  globalAuthExpiry := Some (JS.Date_ms 86400) |}
  /\ final r <> g.
Proof. cbv zeta. repeat split; try (vm_compute; reflexivity). vm_compute. discriminate. Qed.

(** C2 (amended).  With [AUTH] unset, [CLIENT_ID] set and a well-formed
    endpoint URL, when a refresh is attempted and the fetch is rejected or
    its body is not JSON, the error reaches the caller of [getAuthValue]
    after exactly one token request, the cached expiry is what it was, the
    cached credential is the empty string, and so the next call attempts a
    refresh again whatever the time. *)
Theorem getAuthValue_failed_refresh (env : Env) (io : Io) (g : Globals)
    (u : string) :
  JS.truthy (AUTH env) = false ->
  JS.truthy (CLIENT_ID env) = true ->
  token_endpoint env = Some u ->
  refresh_test g (date_new io) = true ->
  reply io = FetchRejects \/ reply io = JsonRejects ->
  let r := getAuthValue env io g in
  (exists e, outcome r = Rejected e)
  /\ length (sent r) = 1%nat
  /\ globalAuthExpiry (final r) = globalAuthExpiry g
  /\ globalAuthValue (final r) = Some ""
  /\ forall now, refresh_test (final r) now = true.
Proof.
  intros Ha Hc Hu Ht Hr. cbv zeta. run. rewrite Ha, Hc. cbn. rewrite Ht. cbn.
  rewrite Hu. cbn.
  destruct Hr as [Hr | Hr]; rewrite Hr; cbn;
    (split; [eexists; reflexivity | repeat split]).
Qed.

(** The amended C2 at the second call of the counterexample. *)
Lemma getAuthValue_failed_refresh_witness :
  let g := {| globalAuthValue := Some "Bearer t";
              globalAuthExpiry := Some (JS.Date_ms 86400) |} in
  let io := {| date_new := 1000; reply := FetchRejects; date_now := 1000 |} in
  let r := getAuthValue Examples.env_oauth io g in
  (exists e, outcome r = Rejected e)
  /\ length (sent r) = 1%nat
  /\ globalAuthExpiry (final r) = globalAuthExpiry g
  /\ globalAuthValue (final r) = Some ""
  /\ forall now, refresh_test (final r) now = true.
Proof.
  intros g io.
  apply (getAuthValue_failed_refresh Examples.env_oauth io g
           "https://idcs/oauth2/v1/token");
    [reflexivity | reflexivity | reflexivity | reflexivity | left; reflexivity].
Defined.

(** C3 (the code departs from the claim).  A refresh at [Date.now()] =
    1 000 000 ms whose reply carries [expires_in] = 3600 (seconds) stores
    the expiry 1 003 600 ms: the duration is added as milliseconds.  The
    claim says 1 000 000 + 3600 * 1000 = 4 600 000 ms. *)
Theorem getAuthValue_expiry_adds_seconds_as_ms :
  let r := getAuthValue Examples.env_oauth
             {| date_new := 999900; reply := Json (Some "t") (Some 3600);
                date_now := 1000000 |} initial in
  outcome r = Fulfilled (Some "Bearer t")
  /\ globalAuthExpiry (final r) = Some (JS.Date_ms 1003600)
  /\ globalAuthExpiry (final r) <> Some (JS.Date_ms (1000000 + 3600 * 1000)).
Proof. cbv zeta. repeat split; try (vm_compute; reflexivity). vm_compute. discriminate. Qed.

(** C6.  When [AUTH] is set (to a non-empty string), every call of
    [getAuthValue], in any state and at any time, returns exactly that
    string and sends no token request. *)
Theorem getAuthValue_static (env : Env) (io : Io) (g : Globals) :
  JS.truthy (AUTH env) = true ->
  outcome (getAuthValue env io g) = Fulfilled (AUTH env)
  /\ sent (getAuthValue env io g) = [].
Proof.
  intros Ha. run. rewrite Ha. cbn. split; reflexivity.
Qed.

Lemma getAuthValue_static_witness :
  JS.truthy (AUTH Examples.env_static) = true
  /\ outcome (getAuthValue Examples.env_static
               {| date_new := 0; reply := FetchRejects; date_now := 0 |}
               Examples.cached_until_20s)
     = Fulfilled (Some "Basic dXNlcjpwdw==")
  /\ sent (getAuthValue Examples.env_static
             {| date_new := 0; reply := FetchRejects; date_now := 0 |}
             Examples.cached_until_20s) = [].
Proof.
  split; [reflexivity |].
  apply (getAuthValue_static Examples.env_static
           {| date_new := 0; reply := FetchRejects; date_now := 0 |}
           Examples.cached_until_20s).
  reflexivity.
Defined.

(** C7.  When neither [AUTH] nor [CLIENT_ID] is set, [isAuthNeeded()] is
    false and [getAuthValue()] returns [null] (and sends nothing). *)
Theorem no_auth_configured (env : Env) (io : Io) (g : Globals) :
  JS.truthy (AUTH env) = false ->
  JS.truthy (CLIENT_ID env) = false ->
  isAuthNeeded env = false
  /\ outcome (getAuthValue env io g) = Fulfilled None
  /\ sent (getAuthValue env io g) = [].
Proof.
  intros Ha Hc. unfold isAuthNeeded. run. rewrite Ha, Hc. cbn.
  repeat split.
Qed.

Lemma no_auth_configured_witness :
  AUTH Examples.env_public = None
  /\ CLIENT_ID Examples.env_public = None
  /\ isAuthNeeded Examples.env_public = false
  /\ outcome (getAuthValue Examples.env_public
               {| date_new := 0; reply := FetchRejects; date_now := 0 |}
               initial) = Fulfilled None
  /\ sent (getAuthValue Examples.env_public
             {| date_new := 0; reply := FetchRejects; date_now := 0 |}
             initial) = [].
Proof.
  split; [reflexivity | split; [reflexivity |]].
  apply (no_auth_configured Examples.env_public
           {| date_new := 0; reply := FetchRejects; date_now := 0 |} initial);
    reflexivity.
Defined.

End TokenCache.

(** ** The client factory *)

Section ClientFactory.

Import ServerConfigUtils.

(** Once [clientInstance] holds a client, every call returns it and the
    state stays as it is. *)
Lemma calls_memoized (env : Env) (c : Client) (n k : nat) :
  ServerConfigUtilsDelivery.calls env k
    {| ServerConfigUtilsDelivery.clientInstance := Some c;
       ServerConfigUtilsDelivery.built := n |}
  = (repeat c k,
     {| ServerConfigUtilsDelivery.clientInstance := Some c;
        ServerConfigUtilsDelivery.built := n |}).
Proof.
  induction k as [| k IH]; cbn; [reflexivity |].
  rewrite IH. reflexivity.
Qed.

(** The factory of lines 162-197 never returns a client it returned before:
    the handle it gives is the running count of clients built. *)
Lemma getClient_fresh (env : Env) (n : nat) :
  handle (fst (getClient env n)) = n /\ snd (getClient env n) = S n.
Proof.
  unfold getClient, createPreviewClient, createDeliveryClient.
  destruct (JS.truthy (PREVIEW env)); cbn; split; reflexivity.
Qed.

(** C4 as stated fails for the [getClient] of lines 162-197: two calls in
    a row under one configuration build two clients, and the second result
    is not the first. *)
Lemma getClient_two_calls_two_clients :
  same_instance
    (fst (getClient Examples.env_oauth 0))
    (fst (getClient Examples.env_oauth (snd (getClient Examples.env_oauth 0))))
  = false
  /\ snd (getClient Examples.env_oauth (snd (getClient Examples.env_oauth 0)))
     = 2%nat.
Proof. split; vm_compute; reflexivity. Qed.

(** C4 (amended).  The [getClient] that keeps [clientInstance] (lines
    215-242) is a memoized singleton: starting with [clientInstance] null,
    the first call builds one client and stores it, and that call followed
    by any number [k] of further calls returns this one client every time,
    with exactly one client built.  The [getClient] of lines 162-197 has no
    such variable: each call builds a client of its own, so two calls in a
    row never return the same instance. *)
Theorem getClient_singleton_where_memoized (env : Env) (n k : nat) :
  let g0 := {| ServerConfigUtilsDelivery.clientInstance := None;
               ServerConfigUtilsDelivery.built := n |} in
  let c := fst (ServerConfigUtilsDelivery.getClient env g0) in
  let g1 := snd (ServerConfigUtilsDelivery.getClient env g0) in
  g1 = {| ServerConfigUtilsDelivery.clientInstance := Some c;
          ServerConfigUtilsDelivery.built := S n |}
  /\ ServerConfigUtilsDelivery.calls env (S k) g0 = (repeat c (S k), g1)
  /\ same_instance
       (fst (getClient env n))
       (fst (getClient env (snd (getClient env n)))) = false.
Proof.
  cbv zeta. split; [reflexivity | split].
  - cbn. rewrite calls_memoized. reflexivity.
  - unfold same_instance.
    destruct (getClient_fresh env n) as [H1 H2]. rewrite H2.
    destruct (getClient_fresh env (S n)) as [H3 _]. rewrite H1, H3.
    apply Nat.eqb_neq. lia.
Qed.

End ClientFactory.

(** ** String replacement *)

Section Replace.








End Replace.

(** ** Image URLs *)

Section ImageUrl.

Import ServerConfigUtils.



End ImageUrl.

(** ** The proxy route *)

Section Proxy.

Import ServerConfigUtils ApiHandler.




End Proxy.

(** ** Flattening *)

Section Flatten.

Import Services.

(** Induction over the nesting of arrays. *)
Lemma Value_array_ind (P : Value -> Prop) :
  (forall v, isArray v = false -> P v) ->
  (forall inner, Forall P inner -> P (VArr inner)) ->
  forall v, P v.
Proof.
  intros Hleaf Harr. fix IH 1.
  intros [ | | b | n | s | inner | props]; try (apply Hleaf; reflexivity).
  apply Harr. revert inner. fix IHl 1.
  intros [| x inner]; constructor; [apply IH | apply IHl].
Qed.

(** The loop appends to [result] the leaves of what it walks over. *)
Lemma flatten_loop (l result : list Value) :
  Forall (fun x => forall r, flattenElement x r = (r ++ leaves x)%list) l ->
  fold_left (fun result x => flattenElement x result) l result
  = (result ++ concat (map leaves l))%list.
Proof.
  intros H. revert result.
  induction H as [| x l Hx _ IH]; intros result; cbn [fold_left map concat].
  - rewrite app_nil_r. reflexivity.
  - rewrite Hx, IH, <- app_assoc. reflexivity.
Qed.

Lemma flattenElement_leaves (v : Value) (result : list Value) :
  flattenElement v result = (result ++ leaves v)%list.
Proof.
  revert result. induction v as [v Hv | inner IH] using Value_array_ind;
    intros result.
  - destruct v; try reflexivity. discriminate Hv.
  - cbn [flattenElement leaves]. apply flatten_loop, IH.
Qed.

Lemma flattenArray_leaves (inArray result : list Value) :
  flattenArray inArray result = (result ++ concat (map leaves inArray))%list.
Proof.
  unfold flattenArray. apply flatten_loop.
  apply Forall_forall. intros x _ r. apply flattenElement_leaves.
Qed.

(** No leaf is an array. *)
Lemma leaves_not_arrays (v : Value) :
  Forall (fun x => isArray x = false) (leaves v).
Proof.
  induction v as [v Hv | inner IH] using Value_array_ind.
  - destruct v; try (repeat constructor). discriminate Hv.
  - cbn [leaves]. induction IH as [| x l Hx _ IHl]; cbn [map concat].
    + constructor.
    + apply Forall_app. split; assumption.
Qed.

(** A list without arrays is its own list of leaves. *)
Lemma leaves_flat (l : list Value) :
  Forall (fun x => isArray x = false) l -> concat (map leaves l) = l.
Proof.
  induction 1 as [| x l Hx _ IH]; cbn [map concat]; [reflexivity |].
  rewrite IH. destruct x; try reflexivity. discriminate Hx.
Qed.

(** C9.  [flattenArray(inArray)] is the list of the non-array leaves of
    [inArray], left to right, whatever the depth of nesting: it equals the
    concatenation of the leaves of the elements, it holds no array, and on
    an input without arrays it is a list equal to the input. *)
Theorem flattenArray_fully_flattens (inArray : list Value) :
  flattenArray inArray [] = concat (map leaves inArray)
  /\ Forall (fun x => isArray x = false) (flattenArray inArray [])
  /\ (Forall (fun x => isArray x = false) inArray ->
      flattenArray inArray [] = inArray).
Proof.
  rewrite flattenArray_leaves. cbn [app]. split; [reflexivity | split].
  - induction inArray as [| x l IH]; cbn [map concat]; [constructor |].
    apply Forall_app. split; [apply leaves_not_arrays | exact IH].
  - apply leaves_flat.
Qed.

Lemma flattenArray_fully_flattens_witness :
  flattenArray [VNum 1; VArr [VNum 2; VArr [VNum 3; VArr []]; VStr "a"]; VNull] []
    = [VNum 1; VNum 2; VNum 3; VStr "a"; VNull]
  /\ flattenArray [VNum 1; VStr "a"; VObj [("items", VArr [VNum 9])]] []
     = [VNum 1; VStr "a"; VObj [("items", VArr [VNum 9])]].
Proof.
  split.
  - apply (proj1 (flattenArray_fully_flattens
             [VNum 1; VArr [VNum 2; VArr [VNum 3; VArr []]; VStr "a"]; VNull])).
  - apply (proj2 (proj2 (flattenArray_fully_flattens
             [VNum 1; VStr "a"; VObj [("items", VArr [VNum 9])]]))).
    repeat constructor.
Defined.

End Flatten.

(** ** The category fan-out *)

Section FanOut.

Import Services.
Local Open Scope nat_scope.

Lemma set_prop_twice (k : string) (v v' : Value) (o : Obj) :
  set_prop k v (set_prop k v' o) = set_prop k v o.
Proof.
  induction o as [| [k0 v0] o IH]; cbn.
  - rewrite String.eqb_refl. reflexivity.
  - destruct (String.eqb k k0) eqn:E; cbn.
    + rewrite String.eqb_refl. reflexivity.
    + rewrite E, IH. reflexivity.
Qed.

(** Writing [k], then another property, then [k] again leaves the same
    object as writing [k] once and then the other property. *)
Lemma set_prop_sandwich (k k' : string) (v v' v'' : Value) (o : Obj) :
  k <> k' ->
  set_prop k v (set_prop k' v' (set_prop k v'' o))
  = set_prop k' v' (set_prop k v o).
Proof.
  intros Hne.
  assert (Hkk' : String.eqb k k' = false) by (apply String.eqb_neq; exact Hne).
  assert (Hk'k : String.eqb k' k = false)
    by (apply String.eqb_neq; congruence).
  induction o as [| [k0 v0] o IH]; cbn [set_prop].
  - rewrite Hk'k. cbn [set_prop]. rewrite String.eqb_refl. reflexivity.
  - destruct (String.eqb k k0) eqn:E.
    + apply String.eqb_eq in E. subst k0.
      cbn [set_prop]. rewrite Hk'k. cbn [set_prop].
      rewrite String.eqb_refl. reflexivity.
    + destruct (String.eqb k' k0) eqn:E'; cbn [set_prop]; rewrite E'.
      * apply String.eqb_eq in E'. subst k0.
        cbn [set_prop]. rewrite E, set_prop_twice. reflexivity.
      * cbn [set_prop]. rewrite E, IH. reflexivity.
Qed.

(** An object that went through the callback is still the original but
    for [items] and [totalResults]. *)
Lemma same_but_items_step (topLevelItem o' o : Obj) :
  same_but_items o' o -> same_but_items (with_items topLevelItem o') o.
Proof.
  intros H items total. unfold with_items.
  rewrite (set_prop_sandwich "items" "totalResults") by discriminate.
  rewrite set_prop_twice. apply H.
Qed.

Lemma same_but_items_copy (topLevelItem o' o : Obj) :
  same_but_items o' o -> with_items topLevelItem o' = with_items topLevelItem o.
Proof. intros H. apply H. Qed.

(** The callback on a fetch that gave an object. *)
Lemma then_callback_obj (r : nat) (topLevelItem o : Obj) (h : Heap) :
  h !! r = Some o ->
  then_callback r (VObj topLevelItem) h
  = Some (VObj (with_items topLevelItem o),
          alter (with_items topLevelItem) r h).
Proof.
  intros Hr. unfold then_callback. rewrite Hr. cbn [member].
  rewrite list_alter_alter_eq, list_lookup_alter_eq, Hr. reflexivity.
Qed.

(** The synchronous part: one fetch per category, in the order of the
    array, each numbered by its position. *)
Lemma issue_spec (client : Client) (categories : list nat) (h : Heap) (n : nat) :
  (forall r, r ∈ categories -> is_Some (h !! r)) ->
  exists issued,
    issue client n categories h = Some issued
    /\ length issued = length categories
    /\ forall i r, categories !! i = Some r ->
         exists o, h !! r = Some o
           /\ issued !! i
              = Some (r, fetchItemsForCategory client (n + i) (get_prop "id" o) true).
Proof.
  revert n. induction categories as [| r0 categories IH]; intros n Hin; cbn.
  - exists []. repeat split. intros i r Hi. discriminate Hi.
  - destruct (Hin r0) as [o0 Ho0]; [left |]. rewrite Ho0.
    destruct (IH (S n)) as (issued & Hi & Hl & Hes).
    { intros r Hr. apply Hin. right. exact Hr. }
    rewrite Hi. eexists. split; [reflexivity | split].
    + cbn. rewrite Hl. reflexivity.
    + intros [| i] r Hr; cbn in Hr.
      * injection Hr as <-. exists o0. rewrite Nat.add_0_r. split; [exact Ho0 | reflexivity].
      * destruct (Hes i r Hr) as (o & Ho & He). exists o.
        split; [exact Ho |].
        replace (n + S i) with (S n + i) by lia. exact He.
Qed.

(** One completion keeps the loop in order, fulfils its own promise and
    leaves the fulfilled ones as they are. *)
Lemma on_complete_ok (h : Heap) (issued : list (nat * Value)) (st : Loop) (i : nat) :
  issued_ok h issued ->
  Loop_ok h issued st ->
  Loop_ok h issued (on_complete issued st i)
  /\ fulfilled_at h issued (on_complete issued st i) i
  /\ forall j, fulfilled_at h issued st j ->
               fulfilled_at h issued (on_complete issued st i) j.
Proof.
  intros Hiss [Hlen Hheap Hprom]. unfold on_complete.
  destruct (issued !! i) as [[r v] |] eqn:Hi.
  2:{ split; [constructor; assumption | split; [| tauto]].
      intros r t o Hi'. rewrite Hi in Hi'. discriminate. }
  destruct (Hiss i r v Hi) as (top & o & -> & Hr).
  destruct (Hprom i r top o Hi Hr) as [Hp | Hp]; rewrite Hp.
  2:{ split; [constructor; assumption | split; [| tauto]].
      intros r' t' o' Hi' Hr'. rewrite Hi in Hi'. injection Hi' as <- <-.
      rewrite Hr in Hr'. injection Hr' as <-. exact Hp. }
  destruct (Hheap r o Hr) as (o' & Ho' & Hsame).
  rewrite (then_callback_obj r top o' (heap st) Ho').
  assert (Hlt : i < length (promises st)) by (eapply lookup_lt_Some; eauto).
  assert (Hcopy : with_items top o' = with_items top o)
    by (apply same_but_items_copy; exact Hsame).
  split; [constructor; cbn [heap promises] | split].
  - rewrite length_insert. exact Hlen.
  - intros r2 o2 Hr2. destruct (decide (r = r2)) as [<- | Hne].
    + rewrite Hr in Hr2. injection Hr2 as <-.
      exists (with_items top o'). rewrite list_lookup_alter_eq, Ho'.
      split; [reflexivity | apply same_but_items_step; exact Hsame].
    + rewrite list_lookup_alter_ne by exact Hne. apply Hheap, Hr2.
  - intros j r2 t2 o2 Hj Hr2. destruct (decide (i = j)) as [<- | Hne].
    + rewrite Hi in Hj. injection Hj as <- <-.
      rewrite Hr in Hr2. injection Hr2 as <-.
      right. rewrite list_lookup_insert_eq by exact Hlt. rewrite Hcopy.
      reflexivity.
    + rewrite list_lookup_insert_ne by exact Hne. eapply Hprom; eauto.
  - intros r2 t2 o2 Hj Hr2. cbn [promises].
    rewrite Hi in Hj. injection Hj as <- <-.
    rewrite Hr in Hr2. injection Hr2 as <-.
    rewrite list_lookup_insert_eq by exact Hlt. rewrite Hcopy. reflexivity.
  - intros j Hful r2 t2 o2 Hj Hr2. cbn [promises].
    destruct (decide (i = j)) as [<- | Hne].
    + rewrite (Hful r2 t2 o2 Hj Hr2) in Hp. discriminate.
    + rewrite list_lookup_insert_ne by exact Hne. eapply Hful; eauto.
Qed.

(** The whole run, for any order of completion. *)
Lemma run_ok (h : Heap) (issued : list (nat * Value)) (schedule : list nat) :
  issued_ok h issued ->
  forall st, Loop_ok h issued st ->
    Loop_ok h issued (fold_left (on_complete issued) schedule st)
    /\ (forall i, i ∈ schedule ->
          fulfilled_at h issued (fold_left (on_complete issued) schedule st) i)
    /\ (forall j, fulfilled_at h issued st j ->
          fulfilled_at h issued (fold_left (on_complete issued) schedule st) j).
Proof.
  intros Hiss. induction schedule as [| i schedule IH]; intros st Hok;
    cbn [fold_left].
  - split; [exact Hok | split; [| tauto]]. intros i Hi. inversion Hi.
  - destruct (on_complete_ok h issued st i Hiss Hok) as (Hok1 & Hi1 & Hmono1).
    destruct (IH _ Hok1) as (Hok2 & Hin2 & Hmono2).
    split; [exact Hok2 | split].
    + intros j Hj. apply elem_of_cons in Hj as [-> | Hj].
      * apply Hmono2, Hi1.
      * apply Hin2, Hj.
    + intros j Hj. apply Hmono2, Hmono1, Hj.
Qed.

(** Before any fetch has come back. *)
Lemma start_ok (h : Heap) (issued : list (nat * Value)) :
  Loop_ok h issued {| heap := h; promises := replicate (length issued) Pending |}.
Proof.
  constructor; cbn [heap promises].
  - apply length_replicate.
  - intros r o Hr. exists o. split; [exact Hr | intros items total; reflexivity].
  - intros i r t o Hi _. left. apply lookup_replicate_2.
    eapply lookup_lt_Some; eauto.
Qed.

(** [Promise.all] over promises that are all fulfilled. *)
Lemma values_fulfilled (ps : list PromiseState) :
  (forall i, i < length ps -> exists v, ps !! i = Some (Fulfilled v)) ->
  exists vs,
    Promise_all ps = Resolves vs
    /\ length vs = length ps
    /\ forall i v, ps !! i = Some (Fulfilled v) -> vs !! i = Some v.
Proof.
  unfold Promise_all. induction ps as [| p ps IH]; intros Hall.
  - exists []. cbn. repeat split. intros i v Hi. discriminate Hi.
  - destruct (Hall 0) as [v0 Hv0]; [cbn; lia |].
    cbn in Hv0. injection Hv0 as ->.
    destruct IH as (vs & Hvs & Hlen & Hlook).
    { intros i Hi. apply (Hall (S i)). cbn. lia. }
    cbn [existsb is_rejected values orb] in *.
    destruct (existsb is_rejected ps); [discriminate Hvs |].
    destruct (values ps) as [vs' |]; [| discriminate Hvs].
    injection Hvs as ->.
    exists (v0 :: vs). split; [reflexivity | split].
    + cbn. rewrite Hlen. reflexivity.
    + intros [| i] v Hi; cbn in Hi.
      * injection Hi as ->. reflexivity.
      * apply Hlook, Hi.
Qed.

(** Properties other than [items] and [totalResults], the [id] among
    them, are those of the input category. *)
Lemma get_prop_set_prop_ne (k k' : string) (v : Value) (o : Obj) :
  k <> k' -> get_prop k (set_prop k' v o) = get_prop k o.
Proof.
  intros Hne.
  assert (Hkk' : String.eqb k k' = false) by (apply String.eqb_neq; exact Hne).
  induction o as [| [k0 v0] o IH]; cbn [set_prop get_prop].
  - rewrite Hkk'. reflexivity.
  - destruct (String.eqb k' k0) eqn:E; cbn [get_prop].
    + apply String.eqb_eq in E. subst k0. rewrite Hkk'. reflexivity.
    + rewrite IH. reflexivity.
Qed.

Lemma with_items_other (k : string) (topLevelItem o : Obj) :
  k <> "items" -> k <> "totalResults" ->
  get_prop k (with_items topLevelItem o) = get_prop k o.
Proof.
  intros H1 H2. unfold with_items.
  rewrite !get_prop_set_prop_ne by assumption. reflexivity.
Qed.

(** At most one list is the result in input order. *)
Lemma in_input_order_unique (client : Client) (categories : list nat) (h : Heap)
    (l1 l2 : list Value) :
  (forall r, r ∈ categories -> is_Some (h !! r)) ->
  in_input_order client categories h l1 ->
  in_input_order client categories h l2 ->
  l1 = l2.
Proof.
  intros Hcat [Hlen1 H1] [Hlen2 H2]. apply list_eq. intros i.
  destruct (categories !! i) as [r |] eqn:Hi.
  - destruct (Hcat r) as [o Ho]; [eapply list_elem_of_lookup_2; eauto |].
    destruct (H1 i r o Hi Ho) as (t1 & Hc1 & ->).
    destruct (H2 i r o Hi Ho) as (t2 & Hc2 & ->).
    rewrite Hc1 in Hc2. injection Hc2 as ->. reflexivity.
  - apply lookup_ge_None in Hi.
    rewrite (lookup_ge_None_2 l1), (lookup_ge_None_2 l2) by lia. reflexivity.
Qed.

(** The fan-out when every fetch has completed, in whatever order. *)
Lemma addItemsToCategories_complete (client : Client)
    (schedule categories : list nat) (h : Heap) :
  (forall r, r ∈ categories -> is_Some (h !! r)) ->
  (forall n q, exists topLevelItem, client n q = Some (VObj topLevelItem)) ->
  (forall i, i < length categories -> i ∈ schedule) ->
  exists result,
    fst (addItemsToCategories client schedule categories h) = Resolves result
    /\ in_input_order client categories h result.
Proof.
  intros Hcat Hclient Hsched.
  destruct (issue_spec client categories h 0 Hcat) as (issued & Hi & Hl & Hes).
  unfold addItemsToCategories. rewrite Hi.
  assert (Hiss : issued_ok h issued).
  { intros j r v Hj.
    assert (Hlt : j < length categories)
      by (rewrite <- Hl; eapply lookup_lt_Some; eauto).
    destruct (lookup_lt_is_Some_2 categories j Hlt) as [r' Hr'].
    destruct (Hes j r' Hr') as (o & Ho & He). cbn in He.
    rewrite Hj in He. injection He as -> ->.
    unfold fetchItemsForCategory.
    destruct (Hclient j (query_for o)) as [t Ht]. unfold query_for in Ht.
    rewrite Ht. eauto. }
  destruct (run_ok h issued schedule Hiss _ (start_ok h issued))
    as (Hok & Hin & _).
  set (st := fold_left (on_complete issued) schedule _) in *.
  assert (Hful : forall i r o, categories !! i = Some r -> h !! r = Some o ->
            exists t, client i (query_for o) = Some (VObj t)
              /\ promises st !! i = Some (Fulfilled (VObj (with_items t o)))).
  { intros i r o Hr Ho.
    destruct (Hes i r Hr) as (o' & Ho' & He). cbn in He.
    rewrite Ho in Ho'. injection Ho' as <-.
    destruct (Hclient i (query_for o)) as [t Ht]. exists t.
    split; [exact Ht |].
    apply (Hin i) with (r := r).
    - apply Hsched. eapply lookup_lt_Some; eauto.
    - rewrite He. unfold fetchItemsForCategory. unfold query_for in Ht.
      rewrite Ht. reflexivity.
    - exact Ho. }
  assert (Hall : forall i, i < length (promises st) ->
            exists t o, promises st !! i = Some (Fulfilled (VObj (with_items t o)))).
  { intros i Hlt. rewrite (ok_length _ _ _ Hok), Hl in Hlt.
    destruct (lookup_lt_is_Some_2 categories i Hlt) as [r Hr].
    destruct (Hcat r) as [o Ho]; [eapply list_elem_of_lookup_2; eauto |].
    destruct (Hful i r o Hr Ho) as (t & _ & Hp). eauto. }
  destruct (values_fulfilled (promises st)) as (vs & Hvs & Hlen & Hlook).
  { intros i Hlt. destruct (Hall i Hlt) as (t & o & Hp). eauto. }
  rewrite Hvs. cbn [fst].
  assert (Hflat : flattenArray vs [] = vs).
  { rewrite flattenArray_leaves. cbn [app]. apply leaves_flat.
    apply Forall_forall. intros x Hx.
    apply list_elem_of_lookup_1 in Hx as [i Hx].
    assert (Hlt : i < length (promises st))
      by (rewrite <- Hlen; eapply lookup_lt_Some; eauto).
    destruct (Hall i Hlt) as (t & o & Hp).
    rewrite (Hlook i _ Hp) in Hx. injection Hx as <-. reflexivity. }
  rewrite Hflat. exists vs. split; [reflexivity | split].
  - rewrite Hlen, (ok_length _ _ _ Hok), Hl. reflexivity.
  - intros i r o Hr Ho. destruct (Hful i r o Hr Ho) as (t & Ht & Hp).
    exists t. split; [exact Ht | apply Hlook, Hp].
Qed.

(** C8.  When every category of the input is an object and every
    per-category fetch gives an object, then for every order in which the
    [N] fetches complete, [addItemsToCategories] resolves to a list of
    exactly [N] objects whose [i]-th element is the copy of the [i]-th input
    category carrying the items and the total of the [i]-th fetch; the list
    is the same for every order of completion. *)
Theorem addItemsToCategories_in_input_order (client : Client)
    (schedule categories : list nat) (h : Heap) :
  (forall r, r ∈ categories -> is_Some (h !! r)) ->
  (forall n q, exists topLevelItem, client n q = Some (VObj topLevelItem)) ->
  Permutation schedule (seq 0 (length categories)) ->
  exists result,
    fst (addItemsToCategories client schedule categories h) = Resolves result
    /\ length result = length categories
    /\ (forall i r o, categories !! i = Some r -> h !! r = Some o ->
          exists topLevelItem,
            client i (query_for o) = Some (VObj topLevelItem)
            /\ result !! i = Some (VObj (with_items topLevelItem o))
            /\ get_prop "id" (with_items topLevelItem o) = get_prop "id" o)
    /\ forall schedule',
         Permutation schedule' (seq 0 (length categories)) ->
         fst (addItemsToCategories client schedule' categories h)
         = Resolves result.
Proof.
  intros Hcat Hclient Hperm.
  assert (Hcover : forall s, Permutation s (seq 0 (length categories)) ->
            forall i, i < length categories -> i ∈ s).
  { intros s Hs i Hi. rewrite Hs. apply elem_of_seq. lia. }
  destruct (addItemsToCategories_complete client schedule categories h
              Hcat Hclient (Hcover _ Hperm)) as (result & Hres & Hord).
  exists result. split; [exact Hres | split; [apply Hord | split]].
  - intros i r o Hr Ho. destruct (proj2 Hord i r o Hr Ho) as (t & Ht & Hi).
    exists t. split; [exact Ht | split; [exact Hi |]].
    apply with_items_other; discriminate.
  - intros schedule' Hperm'.
    destruct (addItemsToCategories_complete client schedule' categories h
                Hcat Hclient (Hcover _ Hperm')) as (result' & Hres' & Hord').
    rewrite Hres'. f_equal.
    eapply in_input_order_unique; eauto.
Qed.

Lemma addItemsToCategories_in_input_order_witness :
  exists result,
    fst (addItemsToCategories Examples.client_ok [1; 2; 0] [0; 1; 0]
           Examples.two_categories) = Resolves result
    /\ length result = 3
    /\ (forall i r o, [0; 1; 0] !! i = Some r ->
          Examples.two_categories !! r = Some o ->
          exists topLevelItem,
            Examples.client_ok i (query_for o) = Some (VObj topLevelItem)
            /\ result !! i = Some (VObj (with_items topLevelItem o))
            /\ get_prop "id" (with_items topLevelItem o) = get_prop "id" o)
    /\ forall schedule',
         Permutation schedule' (seq 0 3) ->
         fst (addItemsToCategories Examples.client_ok schedule' [0; 1; 0]
                Examples.two_categories) = Resolves result.
Proof.
  apply (addItemsToCategories_in_input_order Examples.client_ok
           [1; 2; 0] [0; 1; 0] Examples.two_categories).
  - intros r Hr. apply lookup_lt_is_Some. cbn.
    apply list_elem_of_In in Hr. cbn in Hr. lia.
  - intros n q. eexists. reflexivity.
  - cbn. apply perm_trans with (l' := [1; 0; 2]).
    + apply perm_skip. apply perm_swap.
    + apply perm_swap.
Defined.

End FanOut.

(** * Further properties of the access layer *)

(** ** The token cache over several calls *)

Section TokenCacheCalls.

Import ServerConfigUtils.

Ltac run_auth := unfold getAuthValue, getBearerAuth, bind, read, ret, throw,
  set_globalAuthValue, set_globalAuthExpiry, fetch_json; cbn.

(** A refresh that gets as far as the fetch sends one request, whatever the
    endpoint answers. *)
Lemma getAuthValue_attempts (env : Env) (io : Io) (g : Globals) (u : string) :
  JS.truthy (AUTH env) = false ->
  JS.truthy (CLIENT_ID env) = true ->
  token_endpoint env = Some u ->
  refresh_test g (date_new io) = true ->
  exists rq, sent (getAuthValue env io g) = [rq].
Proof.
  intros Ha Hc Hu Ht. run_auth. rewrite Ha, Hc. cbn. rewrite Ht. cbn.
  rewrite Hu. cbn. destruct (reply io); cbn; eexists; reflexivity.
Qed.

(** Whatever [getAuthValue] is fulfilled with is a non-empty string when
    authentication is needed and [null] when it is not. *)
Lemma fulfilled_credential (env : Env) (io : Io) (g : Globals)
    (v : option string) :
  outcome (getAuthValue env io g) = Fulfilled v ->
  JS.truthy v = isAuthNeeded env.
Proof.
  unfold isAuthNeeded. run_auth.
  destruct (JS.truthy (AUTH env)) eqn:Ha; cbn.
  - intros [= <-]. exact Ha.
  - destruct (JS.truthy (CLIENT_ID env)) eqn:Hc; cbn.
    + destruct (refresh_test g (date_new io)) eqn:Ht; cbn.
      * destruct (token_endpoint env); cbn; [| discriminate].
        destruct (reply io); cbn; try discriminate.
        intros [= <-]. reflexivity.
      * intros [= <-]. unfold refresh_test in Ht.
        apply orb_false_elim in Ht as [Ht _].
        apply negb_false_iff in Ht. exact Ht.
    + intros [= <-]. reflexivity.
Qed.

(** X1.  After a successful refresh at [Date.now()] = t whose reply carries
    [expires_in] = E, the next call, made at time [now], sends a token request
    exactly when [now] < t + E - 5000; otherwise it returns the credential of
    that refresh and leaves the cache as it is. *)
Theorem next_call_after_refresh (env : Env) (io io' : Io) (g : Globals)
    (u : string) (tok : option string) (E : Z) :
  JS.truthy (AUTH env) = false ->
  JS.truthy (CLIENT_ID env) = true ->
  token_endpoint env = Some u ->
  refresh_test g (date_new io) = true ->
  reply io = Json tok (Some E) ->
  Z.abs (date_now io + E) <= JS.MAX_TIME ->
  (sent (getAuthValue env io' (final (getAuthValue env io g))) <> []
   <-> date_new io' < date_now io + E - 5000)
  /\ (date_now io + E - 5000 <= date_new io' ->
      getAuthValue env io' (final (getAuthValue env io g))
      = mkRun (Fulfilled (Some ("Bearer " ++ JS.to_string tok)))
              (final (getAuthValue env io g)) []).
Proof.
  intros Ha Hc Hu Ht Hr Hrange.
  destruct (getAuthValue_refreshes env io g u tok (Some E) Ha Hc Hu Ht Hr)
    as (rq & _ & ->).
  cbn [final JS.num_add JS.new_Date].
  apply Z.leb_le in Hrange. rewrite Hrange.
  set (v := ("Bearer " ++ JS.to_string tok)%string).
  assert (Hv : v <> "") by (subst v; cbn; discriminate).
  pose proof (refresh_test_cached v (date_now io + E) (date_new io') Hv) as Hc'.
  split.
  - destruct (date_now io + E - 5000 >? date_new io') eqn:Hgt.
    + destruct (getAuthValue_attempts env io' _ u Ha Hc Hu Hc') as [rq' ->].
      apply Z.gtb_lt in Hgt. split; [intros _; lia | intros _; discriminate].
    + rewrite (getAuthValue_keeps env io' _ Ha Hc Hc'). cbn [sent].
      rewrite Z.gtb_ltb in Hgt. apply Z.ltb_ge in Hgt.
      split; [intros H; contradiction H; reflexivity | lia].
  - intros Hle.
    assert (Hgt : (date_now io + E - 5000 >? date_new io') = false)
      by (rewrite Z.gtb_ltb; apply Z.ltb_ge; lia).
    rewrite Hgt in Hc'.
    rewrite (getAuthValue_keeps env io' _ Ha Hc Hc'). reflexivity.
Qed.

Lemma next_call_after_refresh_witness :
  (sent (getAuthValue Examples.env_oauth
           {| date_new := 3000000; reply := FetchRejects; date_now := 3000000 |}
           (final (getAuthValue Examples.env_oauth Examples.io_token initial)))
   <> []
   <-> 3000000 < 10050 + 3600 - 5000)
  /\ (10050 + 3600 - 5000 <= 3000000 ->
      getAuthValue Examples.env_oauth
        {| date_new := 3000000; reply := FetchRejects; date_now := 3000000 |}
        (final (getAuthValue Examples.env_oauth Examples.io_token initial))
      = mkRun (Fulfilled (Some "Bearer new"))
              (final (getAuthValue Examples.env_oauth Examples.io_token initial))
              []).
Proof.
  apply (next_call_after_refresh Examples.env_oauth Examples.io_token
           {| date_new := 3000000; reply := FetchRejects; date_now := 3000000 |}
           initial "https://idcs/oauth2/v1/token" (Some "new") 3600);
    try reflexivity.
  vm_compute. discriminate.
Defined.

(** X2.  A JSON reply without [expires_in] (the body of an error response,
    say) is stored like a token: the credential is [Bearer] followed by the
    [access_token] field as text, the expiry is an Invalid Date, and from
    then on every call, at whatever time, returns that credential without a
    token request and leaves the cache untouched. *)
Theorem reply_without_expiry_is_cached_for_good (env : Env) (io io' : Io)
    (g : Globals) (u : string) (tok : option string) :
  JS.truthy (AUTH env) = false ->
  JS.truthy (CLIENT_ID env) = true ->
  token_endpoint env = Some u ->
  refresh_test g (date_new io) = true ->
  reply io = Json tok None ->
  final (getAuthValue env io g)
  = {| globalAuthValue := Some ("Bearer " ++ JS.to_string tok);
       globalAuthExpiry := Some JS.Invalid_Date |}
  /\ getAuthValue env io' (final (getAuthValue env io g))
     = mkRun (Fulfilled (Some ("Bearer " ++ JS.to_string tok)))
             (final (getAuthValue env io g)) [].
Proof.
  intros Ha Hc Hu Ht Hr.
  destruct (getAuthValue_refreshes env io g u tok None Ha Hc Hu Ht Hr)
    as (rq & _ & ->).
  cbn [final JS.num_add JS.new_Date]. split; [reflexivity |].
  rewrite (getAuthValue_keeps env io' _ Ha Hc) by reflexivity. reflexivity.
Qed.

Lemma reply_without_expiry_is_cached_for_good_witness :
  final (getAuthValue Examples.env_oauth
           {| date_new := 0; reply := Json None None; date_now := 0 |} initial)
  = {| globalAuthValue := Some "Bearer undefined";
       globalAuthExpiry := Some JS.Invalid_Date |}
  /\ getAuthValue Examples.env_oauth Examples.io_token
       (final (getAuthValue Examples.env_oauth
                 {| date_new := 0; reply := Json None None; date_now := 0 |}
                 initial))
     = mkRun (Fulfilled (Some "Bearer undefined"))
             (final (getAuthValue Examples.env_oauth
                       {| date_new := 0; reply := Json None None; date_now := 0 |}
                       initial)) [].
Proof.
  apply (reply_without_expiry_is_cached_for_good Examples.env_oauth
           {| date_new := 0; reply := Json None None; date_now := 0 |}
           Examples.io_token initial "https://idcs/oauth2/v1/token" None);
    reflexivity.
Defined.



(** X4.  What a call of [getAuthValue] is fulfilled with is a non-empty
    string exactly when [isAuthNeeded()] is true; when it is false the
    result is [null]. *)
Theorem credential_present_iff_needed (env : Env) (io : Io) (g : Globals)
    (v : option string) :
  outcome (getAuthValue env io g) = Fulfilled v ->
  JS.truthy v = isAuthNeeded env
  /\ (isAuthNeeded env = false -> v = None).
Proof.
  intros H. split; [eapply fulfilled_credential; eauto |].
  revert H. unfold isAuthNeeded. run_auth.
  destruct (JS.truthy (AUTH env)); cbn; [discriminate 2 |].
  destruct (JS.truthy (CLIENT_ID env)); cbn; [discriminate 2 |].
  intros [= <-] _. reflexivity.
Qed.

Lemma credential_present_iff_needed_witness :
  JS.truthy (Some "Bearer new") = isAuthNeeded Examples.env_oauth
  /\ (isAuthNeeded Examples.env_oauth = false -> Some "Bearer new" = None).
Proof.
  apply (credential_present_iff_needed Examples.env_oauth Examples.io_token
           initial (Some "Bearer new")).
  reflexivity.
Defined.

End TokenCacheCalls.

(** ** The proxy route: methods, credentials, transport *)

Section ProxyRoute.

Import ServerConfigUtils ApiHandler.




(** X5.  A request whose method is not GET is dropped: nothing is sent to
    the content server and nothing is written to the response, whatever the
    configuration.  When a credential is needed it is resolved all the same
    before the method is looked at. *)
Theorem handler_drops_other_methods (env : Env) (io : Io)
    (upstream : ClientRequest -> option ProxyResponse)
    (req : IncomingMessage) (res : ServerResponse) (g : Globals) :
  method req <> "GET" ->
  snd (handler env io upstream req res g) = (None, res)
  /\ (isAuthNeeded env = true ->
      fst (handler env io upstream req res g) = Some (getAuthValue env io g)).
Proof.
  intros Hm. apply String.eqb_neq in Hm.
  unfold handler, handleContentRequest. rewrite Hm. cbn [negb].
  destruct (isAuthNeeded env); [| split; [reflexivity | discriminate]].
  destruct (outcome (getAuthValue env io g)); split; reflexivity.
Qed.

Lemma handler_drops_other_methods_witness :
  snd (handler Examples.env_oauth Examples.io_token Examples.upstream_jpeg
         {| method := "POST"; url := "/api/foo"; body := ["x"] |} fresh initial)
  = (None, fresh)
  /\ (isAuthNeeded Examples.env_oauth = true ->
      fst (handler Examples.env_oauth Examples.io_token Examples.upstream_jpeg
             {| method := "POST"; url := "/api/foo"; body := ["x"] |} fresh
             initial)
      = Some (getAuthValue Examples.env_oauth Examples.io_token initial)).
Proof.
  apply (handler_drops_other_methods Examples.env_oauth Examples.io_token
           Examples.upstream_jpeg
           {| method := "POST"; url := "/api/foo"; body := ["x"] |} fresh initial).
  discriminate.
Defined.



(** X7.  When the token refresh fails (the endpoint URL is malformed, the
    fetch is rejected or its body is not JSON), the proxy sends nothing to
    the content server and writes nothing to the response: the request is
    left without an answer. *)
Theorem handler_silent_when_refresh_fails (env : Env) (io : Io)
    (upstream : ClientRequest -> option ProxyResponse)
    (req : IncomingMessage) (res : ServerResponse) (g : Globals) :
  JS.truthy (AUTH env) = false ->
  JS.truthy (CLIENT_ID env) = true ->
  refresh_test g (date_new io) = true ->
  token_endpoint env = None \/ reply io = FetchRejects \/ reply io = JsonRejects ->
  snd (handler env io upstream req res g) = (None, res).
Proof.
  intros Ha Hc Ht Hfail. unfold handler, isAuthNeeded. rewrite Ha, Hc. cbn.
  assert (Hrej : exists e, outcome (getAuthValue env io g) = Rejected e).
  { unfold getAuthValue, getBearerAuth, bind, read, ret, throw,
      set_globalAuthValue, set_globalAuthExpiry, fetch_json. cbn.
    rewrite Ha, Hc. cbn. rewrite Ht. cbn.
    destruct (token_endpoint env); cbn; [| eexists; reflexivity].
    destruct Hfail as [Hf | [Hf | Hf]]; [discriminate Hf | |];
      rewrite Hf; cbn; eexists; reflexivity. }
  destruct Hrej as [e ->]. reflexivity.
Qed.

Lemma handler_silent_when_refresh_fails_witness :
  snd (handler Examples.env_oauth
         {| date_new := 0; reply := FetchRejects; date_now := 0 |}
         Examples.upstream_jpeg Examples.req_get fresh initial)
  = (None, fresh).
Proof.
  apply (handler_silent_when_refresh_fails Examples.env_oauth
           {| date_new := 0; reply := FetchRejects; date_now := 0 |}
           Examples.upstream_jpeg Examples.req_get fresh initial);
    [reflexivity | reflexivity | reflexivity | right; left; reflexivity].
Defined.





End ProxyRoute.

(** ** The client configuration *)

Section ClientConfiguration.

Import ServerConfigUtils.

(** X10.  The credential stays on the server.  The client built by
    [getClient] (lines 162-197) gets the [beforeSend] hook exactly when
    authentication is needed outside a browser, and then it talks to
    [SERVER_URL]; in a browser with authentication needed it has no hook and
    talks to the application's own origin; without authentication it has no
    hook and talks to [SERVER_URL].  It is a preview client exactly when
    [PREVIEW] is set. *)
Theorem getClient_keeps_credential_on_server (env : Env) (n : nat) :
  let c := config (fst (getClient env n)) in
  beforeSend c = isAuthNeeded env && negb (JS.truthy (IS_BROWSER env))
  /\ contentServer c
     = (if isAuthNeeded env && JS.truthy (IS_BROWSER env)
        then Some (window_location_origin env ++ "/")%string
        else SERVER_URL env)
  /\ (beforeSend c = true -> contentServer c = SERVER_URL env)
  /\ contentVersion c = API_VERSION env
  /\ channelToken c = CHANNEL_TOKEN env
  /\ kind (fst (getClient env n))
     = (if JS.truthy (PREVIEW env) then PreviewClient else DeliveryClient).
Proof.
  cbv zeta. unfold getClient, createPreviewClient, createDeliveryClient.
  destruct (isAuthNeeded env), (JS.truthy (IS_BROWSER env)),
    (JS.truthy (PREVIEW env)); cbn; repeat split; discriminate.
Qed.

End ClientConfiguration.

(** ** The base path *)

Section BasePath.

Import NextConfig.

(** X11.  [getBaseUrl()] is empty exactly when [BASE_URL] is unset or empty;
    otherwise it starts with a slash and ends with [BASE_URL], to which at
    most one slash was added; feeding the result back gives the same
    result. *)
Theorem getBaseUrl_normalises (BASE_URL : option string) :
  (getBaseUrl BASE_URL = "" <-> JS.truthy BASE_URL = false)
  /\ (getBaseUrl BASE_URL = "" \/ String.prefix "/" (getBaseUrl BASE_URL) = true)
  /\ (forall s, BASE_URL = Some s ->
        getBaseUrl BASE_URL = s \/ getBaseUrl BASE_URL = ("/" ++ s)%string
        \/ s = "")
  /\ getBaseUrl (Some (getBaseUrl BASE_URL)) = getBaseUrl BASE_URL.
Proof.
  unfold getBaseUrl, JS.startsWith.
  destruct BASE_URL as [s |]; cbn [JS.truthy JS.to_string].
  2:{ split; [tauto | split; [left; reflexivity | split; [discriminate |]]].
      reflexivity. }
  destruct s as [| c s].
  { cbn. split; [tauto | split; [left; reflexivity | split]].
    - intros s [= <-]. right. right. reflexivity.
    - reflexivity. }
  change (negb (String.eqb (String c s) "")) with true. cbv iota.
  destruct (String.prefix "/" (String c s)) eqn:Hp.
  - split; [split; discriminate | split; [right; exact Hp | split]].
    + intros s' [= <-]. left. reflexivity.
    + cbn [JS.truthy String.eqb negb JS.to_string]. rewrite Hp. reflexivity.
  - split; [split; discriminate | split; [right; reflexivity | split]].
    + intros s' [= <-]. right. left. reflexivity.
    + reflexivity.
Qed.

End BasePath.

(** ** The [beforeSend] hook *)

Section Hook.

Import ServerConfigUtils BeforeSend.

Lemma get_prop_set_prop_eq (k : string) (v : Services.Value) (o : Services.Obj) :
  Services.get_prop k (Services.set_prop k v o) = v.
Proof.
  induction o as [| [k0 v0] o IH]; cbn [Services.set_prop Services.get_prop].
  - rewrite String.eqb_refl. reflexivity.
  - destruct (String.eqb k k0) eqn:E; cbn [Services.get_prop].
    + rewrite String.eqb_refl. reflexivity.
    + rewrite E. exact IH.
Qed.

(** X12.  When [getAuthValue] is fulfilled, the hook resolves with [true]
    and the request's headers are the ones it had (none counts as an empty
    object) with [authorization] set to the credential, every other header
    and every other property of the request left alone; when the hook is in
    use, that is when authentication is needed, the credential is a
    non-empty string.  When [getAuthValue] rejects, the promise of the hook
    is never settled and the request is untouched. *)
Theorem beforeSendCallback_sets_authorization (env : Env) (io : Io)
    (param : Param) (g : Globals) :
  (forall v, outcome (getAuthValue env io g) = Fulfilled v ->
     exists h,
       fst (beforeSendCallback env io param g)
       = HookResolves true {| headers := Some h; others := others param |}
       /\ Services.get_prop "authorization" h = Values.of_credential v
       /\ (forall k, k <> "authorization" ->
             Services.get_prop k h
             = Services.get_prop k (match headers param with
                                    | Some h0 => h0
                                    | None => []
                                    end))
       /\ (isAuthNeeded env = true ->
           exists s, v = Some s /\ s <> ""))
  /\ (forall e, outcome (getAuthValue env io g) = Rejected e ->
        fst (beforeSendCallback env io param g) = HookNeverSettles param).
Proof.
  unfold beforeSendCallback. split.
  - intros v Hv. rewrite Hv. cbn [fst]. eexists. split; [reflexivity |].
    split; [apply get_prop_set_prop_eq | split].
    + intros k Hk. apply get_prop_set_prop_ne. exact Hk.
    + intros Hn. pose proof (fulfilled_credential env io g v Hv) as Ht.
      rewrite Hn in Ht. destruct v as [s |]; [| discriminate Ht].
      exists s. split; [reflexivity |]. intros ->. discriminate Ht.
  - intros e He. rewrite He. reflexivity.
Qed.

Lemma beforeSendCallback_sets_authorization_witness :
  exists h,
    fst (beforeSendCallback Examples.env_oauth Examples.io_token
           {| headers := Some [("accept", Services.VStr "application/json")];
              others := [("url", Services.VStr "https://host/items")] |}
           initial)
    = HookResolves true
        {| headers := Some h;
           others := [("url", Services.VStr "https://host/items")] |}
    /\ Services.get_prop "authorization" h
       = Values.of_credential (Some "Bearer new")
    /\ (forall k, k <> "authorization" ->
          Services.get_prop k h
          = Services.get_prop k [("accept", Services.VStr "application/json")])
    /\ (isAuthNeeded Examples.env_oauth = true ->
        exists s, Some "Bearer new" = Some s /\ s <> "").
Proof.
  apply (proj1 (beforeSendCallback_sets_authorization Examples.env_oauth
                  Examples.io_token
                  {| headers := Some [("accept", Services.VStr "application/json")];
                     others := [("url", Services.VStr "https://host/items")] |}
                  initial) (Some "Bearer new")).
  reflexivity.
Defined.

End Hook.

(** ** Logging *)

Section Log.

Import Services Logging.

(** X13.  [logError] writes a line exactly when [error] is truthy, and the
    line is always the message followed by [ : ] together with
    [error.statusMessage] (which may be [undefined]): [typeof] never gives an
    empty string, so the branch that would log the message alone is never
    taken. *)
Theorem logError_never_logs_bare_message (message : string) (error : Value) :
  (Values.truthy error = false -> logError message error = [])
  /\ (Values.truthy error = true ->
      exists statusMessage,
        member error "statusMessage" = Some statusMessage
        /\ logError message error
           = [[VStr (message ++ " : "); statusMessage]])
  /\ logError message error <> [[VStr message]].
Proof.
  unfold logError.
  destruct error as [ | | [|] | n | s | a | o]; cbn [Values.truthy member andb];
    try (repeat split; try discriminate; intros _; eexists; split; reflexivity).
  - destruct (n =? 0); cbn [negb andb Values.truthy Values.typeof String.eqb];
      repeat split; try discriminate; intros _; eexists; split; reflexivity.
  - destruct (String.eqb s ""); cbn [negb andb Values.truthy Values.typeof String.eqb];
      repeat split; try discriminate; intros _; eexists; split; reflexivity.
  - cbn [Values.truthy Values.typeof].
    assert (Ht : negb (String.eqb (Values.typeof (get_prop "statusMessage" o)) "")
                 = true)
      by (destruct (get_prop "statusMessage" o) as [ | | [|] | | | | ];
          reflexivity).
    unfold Values.typeof in Ht |- *. rewrite Ht.
    repeat split; try discriminate; intros _; eexists; split; reflexivity.
Qed.

Lemma logError_never_logs_bare_message_witness :
  exists statusMessage,
    member (VObj [("statusMessage", VStr "Not Found")]) "statusMessage"
    = Some statusMessage
    /\ logError "Fetching taxonomies failed"
         (VObj [("statusMessage", VStr "Not Found")])
       = [[VStr "Fetching taxonomies failed : "; statusMessage]].
Proof.
  apply (proj1 (proj2 (logError_never_logs_bare_message
                         "Fetching taxonomies failed"
                         (VObj [("statusMessage", VStr "Not Found")])))).
  reflexivity.
Defined.

End Log.

(** ** Rendition URLs *)

Section SourceSet.

Import Services Renditions.

Variable toLowerCase : string -> string.

Lemma andThen_Some {A B} (m : option A) (k : A -> option B) (b : B) :
  andThen m k = Some b -> exists a, m = Some a /\ k a = Some b.
Proof. destruct m as [a |]; cbn; [eauto | discriminate]. Qed.

Ltac step H x Hx :=
  apply andThen_Some in H; destruct H as (x & Hx & H).

(** Only an object has a property that is not [undefined]. *)
Lemma member_array (v : Value) (k : string) (elems : list Value) :
  member v k = Some (VArr elems) -> Values.truthy v = true.
Proof. destruct v; cbn; try discriminate; reflexivity. Qed.



(** X16.  The test of line 84 does not make [fields] optional: an asset that
    is [undefined] or [null], or whose [fields] is missing or falsy, makes
    [getSourceSet] throw at line 91. *)
Theorem getSourceSet_needs_fields (env : Env) (asset : Value) :
  (forall fields, member asset "fields" = Some fields ->
                  Values.truthy fields = false) ->
  getSourceSet toLowerCase env asset = None.
Proof.
  intros H. unfold getSourceSet.
  destruct (member asset "fields") as [fields |] eqn:Hf; [| reflexivity].
  specialize (H fields eq_refl). cbn [andThen]. rewrite H. cbn [andThen].
  destruct fields as [ | | [|] | n | s | a | o]; try discriminate H;
    reflexivity.
Qed.

(** A rendition whose formats hold nothing for [formatstr] makes
    [addRendition] throw: the first match is [undefined]. *)
Lemma addRendition_no_format (env : Env) (urls : Obj) (rendition : Value)
    (formats : list Value) (formatstr : string) :
  member rendition "formats" = Some (VArr formats) ->
  filter_items "format" formatstr formats = Some [] ->
  addRendition toLowerCase env urls rendition formatstr = None.
Proof.
  intros Hf Hnone. unfold addRendition. rewrite Hf. cbn [andThen filter_by].
  rewrite Hnone. reflexivity.
Qed.

Lemma addRenditions_bad_one (env : Env) (bad : Value) (formats : list Value)
    (renditions : list Value) :
  In bad renditions ->
  member bad "formats" = Some (VArr formats) ->
  filter_items "format" "jpg" formats = Some []
  \/ filter_items "format" "webp" formats = Some [] ->
  forall urls, addRenditions toLowerCase env urls renditions = None.
Proof.
  intros Hin Hf Hnone.
  induction renditions as [| r rest IH]; intros urls; [contradiction Hin |].
  cbn [addRenditions].
  destruct (addRendition toLowerCase env urls r "jpg") as [urls1 |] eqn:H1;
    [| reflexivity].
  cbn [andThen].
  destruct (addRendition toLowerCase env urls1 r "webp") as [urls2 |] eqn:H2;
    [| reflexivity].
  cbn [andThen]. destruct Hin as [-> | Hin]; [| apply IH, Hin].
  destruct Hnone as [Hn | Hn].
  - rewrite (addRendition_no_format env urls bad formats "jpg" Hf Hn) in H1.
    discriminate H1.
  - rewrite (addRendition_no_format env urls1 bad formats "webp" Hf Hn) in H2.
    discriminate H2.
Qed.

(** X17.  One rendition that lacks a [jpg] or a [webp] format makes
    [getSourceSet] throw for the whole asset, wherever the rendition stands
    in the list. *)
Theorem getSourceSet_needs_both_formats (env : Env) (asset fields bad : Value)
    (renditions formats : list Value) :
  member asset "fields" = Some fields ->
  member fields "renditions" = Some (VArr renditions) ->
  In bad renditions ->
  member bad "formats" = Some (VArr formats) ->
  filter_items "format" "jpg" formats = Some []
  \/ filter_items "format" "webp" formats = Some [] ->
  getSourceSet toLowerCase env asset = None.
Proof.
  intros Hf Hr Hin Hb Hnone. unfold getSourceSet.
  rewrite Hf. cbn [andThen].
  rewrite (member_array _ _ _ Hr), Hr. cbn [andThen Values.truthy].
  rewrite (addRenditions_bad_one env bad formats renditions Hin Hb Hnone).
  reflexivity.
Qed.

End SourceSet.

Section SourceSetOrder.

Import Services Renditions.

Variable toLowerCase : string -> string.

Ltac step H x Hx :=
  apply andThen_Some in H; destruct H as (x & Hx & H).









End SourceSetOrder.

(** ** The data of the image grid page *)

Section ImageGridData.

Import Services Renditions.

Variable toLowerCase : string -> string.

Ltac step H x Hx :=
  apply andThen_Some in H; destruct H as (x & Hx & H).

(** The loop over the items: all or nothing, in order. *)
Lemma withRenditionUrlsAll_spec (env : Env) (items items' : list Value) :
  withRenditionUrlsAll toLowerCase env items = Some items' ->
  length items' = length items
  /\ forall i item, items !! i = Some item ->
       exists o urls,
         item = VObj o
         /\ getSourceSet toLowerCase env item = Some urls
         /\ items' !! i = Some (VObj (set_prop "renditionUrls" (VObj urls) o)).
Proof.
  revert items'. induction items as [| x items IH]; intros items' H;
    cbn [withRenditionUrlsAll] in H.
  - injection H as <-. split; [reflexivity |]. intros i item Hi. discriminate Hi.
  - step H x' Hx. step H rest Hrest. injection H as <-.
    destruct (IH rest Hrest) as [Hlen Hall].
    split; [cbn; rewrite Hlen; reflexivity |].
    intros [| i] item Hi; cbn in Hi.
    + injection Hi as <-. unfold withRenditionUrls in Hx.
      step Hx urls Hu. destruct x as [ | | | | | | o]; try discriminate Hx.
      injection Hx as <-. exists o, urls. repeat split. exact Hu.
    + destruct (Hall i item Hi) as (o & urls & -> & Hu & Hi').
      exists o, urls. repeat split; assumption.
Qed.

Lemma withRenditionUrlsAll_bad (env : Env) (items : list Value) (bad : Value) :
  In bad items ->
  getSourceSet toLowerCase env bad = None ->
  withRenditionUrlsAll toLowerCase env items = None.
Proof.
  intros Hin Hbad. induction items as [| x items IH]; [contradiction Hin |].
  cbn [withRenditionUrlsAll]. destruct Hin as [-> | Hin].
  - unfold withRenditionUrls. rewrite Hbad. reflexivity.
  - destruct (withRenditionUrls toLowerCase env x); [| reflexivity].
    cbn [andThen]. rewrite (IH Hin). reflexivity.
Qed.

(** X20.  [getImageGridPageData] asks for up to 100 items of the category
    with the total.  When it resolves, the data is an object with
    [totalResults] as fetched and [items], a list as long as the fetched one
    and in the same order, each item being the fetched object with
    [renditionUrls] set to its source set and nothing else changed. *)
Theorem getImageGridPageData_shape (env : Env) (client : Client)
    (categoryId topLevelItem data : Value) :
  client O {| categoryId := categoryId; limit := 100; totalResults := true |}
  = Some topLevelItem ->
  getImageGridPageData toLowerCase env client categoryId = Data data ->
  exists count items items',
    member topLevelItem "totalResults" = Some count
    /\ member topLevelItem "items" = Some (VArr items)
    /\ data = VObj [("totalResults", count); ("items", VArr items')]
    /\ length items' = length items
    /\ forall i item, items !! i = Some item ->
         exists o urls,
           item = VObj o
           /\ getSourceSet toLowerCase env item = Some urls
           /\ items' !! i
              = Some (VObj (set_prop "renditionUrls" (VObj urls) o)).
Proof.
  intros Hc. unfold getImageGridPageData, fetchItemsForCategory. rewrite Hc.
  destruct (andThen (member topLevelItem "totalResults") _) as [d |] eqn:H;
    [| discriminate].
  intros [= <-]. step H count Ht. step H items Hi.
  destruct items as [ | | | | | items | ]; try discriminate H.
  step H items' Hall. injection H as <-.
  destruct (withRenditionUrlsAll_spec env items items' Hall) as [Hlen Hpt].
  exists count, items, items'. repeat split; assumption.
Qed.

(** X21.  [getImageGridPageData] rejects when the fetch fails (the error is
    caught and logged, and the value passed on is [undefined]) and when
    [getSourceSet] throws for one of the items: a single malformed asset
    leaves the page without data. *)
Theorem getImageGridPageData_rejects (env : Env) (client : Client)
    (categoryId : Value) :
  client O {| categoryId := categoryId; limit := 100; totalResults := true |}
  = None
  \/ (exists topLevelItem items bad,
        client O {| categoryId := categoryId; limit := 100; totalResults := true |}
        = Some topLevelItem
        /\ member topLevelItem "items" = Some (VArr items)
        /\ In bad items
        /\ getSourceSet toLowerCase env bad = None) ->
  getImageGridPageData toLowerCase env client categoryId = NoData.
Proof.
  unfold getImageGridPageData, fetchItemsForCategory.
  intros [Hc | (top & items & bad & Hc & Hi & Hin & Hbad)]; rewrite Hc.
  - reflexivity.
  - destruct (member top "totalResults"); [| reflexivity].
    cbn [andThen]. rewrite Hi. cbn [andThen].
    rewrite (withRenditionUrlsAll_bad env items bad Hin Hbad). reflexivity.
Qed.

End ImageGridData.

(** ** Examples on renditions and page data *)

Section RenditionExamples.

Import Services Renditions DataExamples.



Lemma getSourceSet_needs_fields_witness :
  getSourceSet lower_ascii Examples.env_public (VObj [("id", VStr "CONT1")])
  = None.
Proof.
  apply (getSourceSet_needs_fields lower_ascii Examples.env_public
           (VObj [("id", VStr "CONT1")])).
  intros fields [= <-]. reflexivity.
Defined.

Lemma getSourceSet_needs_both_formats_witness :
  getSourceSet lower_ascii Examples.env_public
    (asset_with (VArr [rendition "Small" 150; rendition_jpg_only]))
  = None.
Proof.
  apply (getSourceSet_needs_both_formats lower_ascii Examples.env_public
           (asset_with (VArr [rendition "Small" 150; rendition_jpg_only]))
           (VObj [("renditions", VArr [rendition "Small" 150; rendition_jpg_only]);
                  ("native",
                   VObj [("links",
                          VArr [VObj [("href", VStr "https://host/n/CONT1")]])]);
                  ("metadata",
                   VObj [("width", VNum 4000); ("height", VNum 3000)])])
           rendition_jpg_only
           [rendition "Small" 150; rendition_jpg_only]
           [format "jpg" "https://host/r/Thumbnail.jpg" 100]);
    try reflexivity.
  - right. left. reflexivity.
  - right. reflexivity.
Defined.

End RenditionExamples.

Section PageDataExamples.

Import Services Renditions DataExamples.




Lemma getImageGridPageData_shape_witness :
  exists count items items',
    member (VObj [("items", VArr [asset]); ("totalResults", VNum 1)])
           "totalResults" = Some count
    /\ member (VObj [("items", VArr [asset]); ("totalResults", VNum 1)])
              "items" = Some (VArr items)
    /\ match getImageGridPageData lower_ascii Examples.env_public client_items
               (VStr "CAT1") with
       | Data d => d
       | NoData => VUndefined
       end = VObj [("totalResults", count); ("items", VArr items')]
    /\ length items' = length items
    /\ forall i item, items !! i = Some item ->
         exists o urls,
           item = VObj o
           /\ getSourceSet lower_ascii Examples.env_public item = Some urls
           /\ items' !! i
              = Some (VObj (set_prop "renditionUrls" (VObj urls) o)).
Proof.
  apply (getImageGridPageData_shape lower_ascii Examples.env_public client_items
           (VStr "CAT1")
           (VObj [("items", VArr [asset]); ("totalResults", VNum 1)])).
  - reflexivity.
  - vm_compute. reflexivity.
Defined.

Lemma getImageGridPageData_rejects_witness :
  getImageGridPageData lower_ascii Examples.env_public (fun _ _ => None)
    (VStr "CAT1") = NoData.
Proof.
  apply (getImageGridPageData_rejects lower_ascii Examples.env_public
           (fun _ _ => None) (VStr "CAT1")).
  left. reflexivity.
Defined.

End PageDataExamples.

(** ** The slideshow of the category page *)

Section SlideshowKeys.

Import CategoryPage.

(** What a key press does to an open slideshow on image [i] of [n]. *)
Lemma keypress_open (n i keyCode : Z) (m : bool) :
  0 <= i < n ->
  handleKeypressFunction (Some n) keyCode
    {| currentImage := Some i; modalOpen := m |}
  = if keyCode =? 37 then
      {| currentImage := Some (Z.max 0 (i - 1)); modalOpen := m |}
    else if keyCode =? 39 then
      {| currentImage := Some (Z.min (n - 1) (i + 1)); modalOpen := m |}
    else if keyCode =? 27 then closed
    else {| currentImage := Some i; modalOpen := m |}.
Proof.
  intros Hi. unfold handleKeypressFunction, handlePrevNextClick, handleCloseClick,
    closed, num_eq. cbn [currentImage modalOpen JS.num_sub JS.num_add].
  assert (H1 : (i =? -1) = false) by (apply Z.eqb_neq; lia). rewrite H1.
  destruct (keyCode =? 37); [| destruct (keyCode =? 39);
                               [| destruct (keyCode =? 27); reflexivity]].
  - cbn [negb andb orb]. rewrite andb_true_r, andb_false_r, orb_false_r.
    destruct (i =? 0) eqn:E.
    + apply Z.eqb_eq in E. subst. reflexivity.
    + apply Z.eqb_neq in E. do 2 f_equal. lia.
  - cbn [negb andb orb]. rewrite andb_true_r, andb_false_r, orb_false_l.
    destruct (i =? n - 1) eqn:E.
    + apply Z.eqb_eq in E. do 2 f_equal. lia.
    + apply Z.eqb_neq in E. do 2 f_equal. lia.
Qed.

Lemma presses_closed (totalResults : option Z) (keyCodes : list Z) (m : bool) :
  presses totalResults keyCodes {| currentImage := Some (-1); modalOpen := m |}
  = {| currentImage := Some (-1); modalOpen := m |}.
Proof.
  unfold presses. induction keyCodes as [| k ks IH]; [reflexivity |].
  cbn [fold_left]. exact IH.
Qed.

(** X22.  Key presses keep the slideshow in range: starting on an image
    [i] with 0 <= i < totalResults, after any run of key presses the
    slideshow is either closed ([currentImage] = -1, [modal-open] removed) or
    on an image [j] with 0 <= j < totalResults; and while it is closed key
    presses change nothing. *)
Theorem slideshow_stays_in_range (n i : Z) (m : bool) (keyCodes : list Z) :
  0 <= i < n ->
  (presses (Some n) keyCodes {| currentImage := Some i; modalOpen := m |}
   = closed
   \/ exists j,
        0 <= j < n
        /\ presses (Some n) keyCodes {| currentImage := Some i; modalOpen := m |}
           = {| currentImage := Some j; modalOpen := m |})
  /\ presses (Some n) keyCodes closed = closed.
Proof.
  intros Hi. split; [| apply presses_closed].
  revert i Hi. induction keyCodes as [| k ks IH]; intros i Hi.
  - right. exists i. split; [exact Hi | reflexivity].
  - unfold presses in *. cbn [fold_left]. rewrite (keypress_open n i k m Hi).
    destruct (k =? 37); [apply IH; lia |].
    destruct (k =? 39); [apply IH; lia |].
    destruct (k =? 27); [| apply IH; exact Hi].
    left. apply presses_closed.
Qed.

Lemma slideshow_stays_in_range_witness :
  (presses (Some 3) [39; 39; 39; 37; 12]
     {| currentImage := Some 0; modalOpen := true |} = closed
   \/ exists j,
        0 <= j < 3
        /\ presses (Some 3) [39; 39; 39; 37; 12]
             {| currentImage := Some 0; modalOpen := true |}
           = {| currentImage := Some j; modalOpen := true |})
  /\ presses (Some 3) [39; 39; 39; 37; 12] closed = closed.
Proof.
  apply (slideshow_stays_in_range 3 0 true [39; 39; 39; 37; 12]). lia.
Defined.

(** X23.  The arrows stop at the ends: from image [i], [k] presses of the
    right arrow lead to image min(i + k, totalResults - 1), and [k] presses
    of the left arrow to image max(i - k, 0). *)
Theorem slideshow_arrows_saturate (n i : Z) (m : bool) (k : nat) :
  0 <= i < n ->
  presses (Some n) (repeat 39 k) {| currentImage := Some i; modalOpen := m |}
  = {| currentImage := Some (Z.min (i + Z.of_nat k) (n - 1)); modalOpen := m |}
  /\ presses (Some n) (repeat 37 k) {| currentImage := Some i; modalOpen := m |}
     = {| currentImage := Some (Z.max (i - Z.of_nat k) 0); modalOpen := m |}.
Proof.
  revert i. induction k as [| k IH]; intros i Hi.
  - cbn. split; do 2 f_equal; lia.
  - unfold presses in *. cbn [repeat fold_left].
    rewrite !(keypress_open n i _ m Hi).
    change (39 =? 37) with false. change (39 =? 39) with true.
    change (37 =? 37) with true. cbv iota.
    destruct (IH (Z.min (n - 1) (i + 1))) as [-> _]; [lia |].
    destruct (IH (Z.max 0 (i - 1))) as [_ ->]; [lia |].
    split; do 2 f_equal; lia.
Qed.

Lemma slideshow_arrows_saturate_witness :
  presses (Some 3) (repeat 39 5) {| currentImage := Some 1; modalOpen := true |}
  = {| currentImage := Some (Z.min (1 + Z.of_nat 5) (3 - 1)); modalOpen := true |}
  /\ presses (Some 3) (repeat 37 5)
       {| currentImage := Some 1; modalOpen := true |}
     = {| currentImage := Some (Z.max (1 - Z.of_nat 5) 0); modalOpen := true |}.
Proof.
  apply (slideshow_arrows_saturate 3 1 true 5). lia.
Defined.

End SlideshowKeys.

(** ** Paths and props of the category pages *)

Section CategoryPaths.

Import Services Renditions HomePage CategoryPage.

Variable toLowerCase : string -> string.

Lemma split_first (sep : ascii) (s : string) :
  exists pieces, split sep s = before sep s :: pieces.
Proof.
  induction s as [| c s [pieces IH]]; cbn [split before].
  - exists []. reflexivity.
  - destruct (Ascii.eqb c sep); [eexists; reflexivity |].
    rewrite IH. eexists. reflexivity.
Qed.

Lemma split_app (sep : ascii) (a b : string) :
  occurs sep a = false ->
  split sep (a ++ String sep b) = a :: split sep b.
Proof.
  induction a as [| c a IH]; cbn [occurs split String.append]; intros H.
  - rewrite Ascii.eqb_refl. reflexivity.
  - apply orb_false_elim in H as [Hc Ha]. rewrite Hc, (IH Ha). reflexivity.
Qed.

Lemma before_absent (sep : ascii) (s : string) :
  occurs sep s = false -> before sep s = s.
Proof.
  induction s as [| c s IH]; cbn [occurs before]; intros H; [reflexivity |].
  apply orb_false_elim in H as [Hc Hs]. rewrite Hc, (IH Hs). reflexivity.
Qed.

(** X24.  From a path to the props.  For a category with the string id
    [id] and the string name [name], [getStaticPaths] gives the parameter
    [<id>-<name>]; when [id] holds no [-], [getStaticProps] on that parameter
    fetches the data of exactly this [id] and passes on as [categoryName] the
    part of [name] before its first [-], which is [name] when it holds
    none. *)
Theorem category_path_round_trip (env : Env) (client : Client)
    (category : Value) (id name : string) :
  member category "id" = Some (VStr id) ->
  member category "name" = Some (VStr name) ->
  occurs "-" id = false ->
  paths [category]
  = Some [VObj [("params", VObj [("id", VStr (id ++ "-" ++ name))])]]
  /\ getStaticProps toLowerCase env client (id ++ "-" ++ name)
     = match getImageGridPageData toLowerCase env client (VStr id) with
       | Data data =>
           Returns (VObj [("props",
                           VObj [("data", data);
                                 ("categoryName", VStr (before "-" name))])])
       | NoData => Fails
       end
  /\ (occurs "-" name = false -> before "-" name = name).
Proof.
  intros Hid Hname Hdash. split; [| split].
  - cbn [paths]. rewrite Hid, Hname. reflexivity.
  - unfold getStaticProps.
    change (id ++ "-" ++ name)%string with (id ++ String "-" name)%string.
    rewrite (split_app "-" id name Hdash).
    destruct (split_first "-" name) as [pieces ->]. reflexivity.
  - apply before_absent.
Qed.

End CategoryPaths.

Section CategoryPathsExample.

Import Services Renditions HomePage CategoryPage DataExamples.

Lemma category_path_round_trip_witness :
  paths [VObj [("id", VStr "CAT1"); ("name", VStr "Black-White")]]
  = Some [VObj [("params", VObj [("id", VStr "CAT1-Black-White")])]]
  /\ getStaticProps lower_ascii Examples.env_public client_items
       "CAT1-Black-White"
     = match getImageGridPageData lower_ascii Examples.env_public client_items
               (VStr "CAT1") with
       | Data data =>
           Returns (VObj [("props",
                           VObj [("data", data);
                                 ("categoryName", VStr "Black")])])
       | NoData => Fails
       end
  /\ (occurs "-" "Black-White" = false -> before "-" "Black-White" = "Black-White").
Proof.
  apply (category_path_round_trip lower_ascii Examples.env_public client_items
           (VObj [("id", VStr "CAT1"); ("name", VStr "Black-White")])
           "CAT1" "Black-White"); reflexivity.
Defined.

End CategoryPathsExample.

(** ** The categories of all taxonomies *)

Section Taxonomies.

Import Services Renditions HomePage.
Local Open Scope nat_scope.

(** How the promise of one category fetch settles. *)
Definition settled (categoriesTopItem : Value) : PromiseState :=
  match member categoriesTopItem "items" with
  | Some items => Fulfilled items
  | None => Rejected
  end.

Lemma issueCategories_length (client : ContentClient) (ids : list Value) (n : nat) :
  length (issueCategories client n ids) = length ids.
Proof.
  revert n. induction ids as [| id ids IH]; intros n; cbn; [reflexivity |].
  rewrite IH. reflexivity.
Qed.

Lemma issueCategories_lookup (client : ContentClient) (ids : list Value)
    (n i : nat) (id : Value) :
  ids !! i = Some id ->
  issueCategories client n ids !! i
  = Some (fetchCategoriesForTaxonomyId client (n + i) id).
Proof.
  revert n i. induction ids as [| x ids IH]; intros n [| i] H;
    cbn in H; try discriminate H.
  - injection H as ->. cbn. rewrite Nat.add_0_r. reflexivity.
  - replace (n + S i) with (S n + i) by lia. exact (IH (S n) i H).
Qed.

(** One completion settles its own promise for good and leaves the others. *)
Lemma settleCategories_step (issued : list Value) (ps : list PromiseState)
    (i : nat) :
  length ps = length issued ->
  (forall j v, issued !! j = Some v ->
     ps !! j = Some Pending \/ ps !! j = Some (settled v)) ->
  length (settleCategories issued ps i) = length issued
  /\ (forall j v, issued !! j = Some v ->
        settleCategories issued ps i !! j = Some Pending
        \/ settleCategories issued ps i !! j = Some (settled v))
  /\ (forall v, issued !! i = Some v ->
        settleCategories issued ps i !! i = Some (settled v))
  /\ (forall j v, issued !! j = Some v -> ps !! j = Some (settled v) ->
        settleCategories issued ps i !! j = Some (settled v)).
Proof.
  intros Hlen Hinv. unfold settleCategories.
  destruct (issued !! i) as [v |] eqn:Hi.
  2:{ split; [exact Hlen | split; [exact Hinv | split]].
      - intros v Hv. discriminate Hv.
      - intros j v _ Hs. exact Hs. }
  assert (Hlt : i < length ps)
    by (rewrite Hlen; eapply lookup_lt_Some; eauto).
  destruct (Hinv i v Hi) as [Hp | Hp]; rewrite Hp.
  - assert (Hset : forall p, p = settled v ->
              length (<[i := p]> ps) = length issued
              /\ (forall j w, issued !! j = Some w ->
                    <[i := p]> ps !! j = Some Pending
                    \/ <[i := p]> ps !! j = Some (settled w))
              /\ (forall w, Some v = Some w ->
                    <[i := p]> ps !! i = Some (settled w))
              /\ (forall j w, issued !! j = Some w -> ps !! j = Some (settled w) ->
                    <[i := p]> ps !! j = Some (settled w))).
    { intros p ->. split; [rewrite length_insert; exact Hlen | split; [| split]].
      - intros j w Hj. destruct (decide (i = j)) as [<- | Hne].
        + rewrite Hi in Hj. injection Hj as <-. right.
          apply list_lookup_insert_eq, Hlt.
        + rewrite list_lookup_insert_ne by exact Hne. apply Hinv, Hj.
      - intros w [= <-]. apply list_lookup_insert_eq, Hlt.
      - intros j w Hj Hs. destruct (decide (i = j)) as [<- | Hne].
        + rewrite Hi in Hj. injection Hj as <-.
          apply list_lookup_insert_eq, Hlt.
        + rewrite list_lookup_insert_ne by exact Hne. exact Hs. }
    unfold settled in Hset.
    destruct (member v "items"); apply Hset; reflexivity.
  - assert (Hsame : (match settled v with
                     | Pending =>
                         match member v "items" with
                         | Some items => <[i := Fulfilled items]> ps
                         | None => <[i := Rejected]> ps
                         end
                     | _ => ps
                     end) = ps)
      by (unfold settled; destruct (member v "items"); reflexivity).
    rewrite Hsame. split; [exact Hlen | split; [exact Hinv | split]].
    + intros w [= <-]. exact Hp.
    + intros j w _ Hs. exact Hs.
Qed.

Lemma settleCategories_run (issued : list Value) (schedule : list nat) :
  forall ps,
    length ps = length issued ->
    (forall j v, issued !! j = Some v ->
       ps !! j = Some Pending \/ ps !! j = Some (settled v)) ->
    length (fold_left (settleCategories issued) schedule ps) = length issued
    /\ (forall i v, i ∈ schedule -> issued !! i = Some v ->
          fold_left (settleCategories issued) schedule ps !! i
          = Some (settled v))
    /\ (forall j v, issued !! j = Some v -> ps !! j = Some (settled v) ->
          fold_left (settleCategories issued) schedule ps !! j
          = Some (settled v)).
Proof.
  induction schedule as [| i schedule IH]; intros ps Hlen Hinv; cbn [fold_left].
  - split; [exact Hlen | split; [| tauto]]. intros i v Hi. inversion Hi.
  - destruct (settleCategories_step issued ps i Hlen Hinv)
      as (Hlen1 & Hinv1 & Hown & Hkeep).
    destruct (IH _ Hlen1 Hinv1) as (Hlen2 & Hin2 & Hkeep2).
    split; [exact Hlen2 | split].
    + intros j v Hj Hv. apply elem_of_cons in Hj as [-> | Hj].
      * apply Hkeep2; [exact Hv | apply Hown, Hv].
      * apply Hin2; assumption.
    + intros j v Hv Hs. apply Hkeep2; [exact Hv |]. apply Hkeep; assumption.
Qed.

Lemma rejected_found (ps : list PromiseState) (i : nat) :
  ps !! i = Some Rejected -> existsb is_rejected ps = true.
Proof.
  revert i. induction ps as [| p ps IH]; intros [| i] H; cbn in H;
    try discriminate H.
  - injection H as ->. reflexivity.
  - cbn. rewrite (IH i H). apply orb_true_r.
Qed.

(** When something fails on the way, the promise of
    [fetchAllTaxonomiesCategories] is fulfilled with [undefined]. *)
Lemma fetchAll_undefined (client : ContentClient) (schedule : list nat) :
  getTaxonomies client = None
  \/ (exists topLevelItem,
        getTaxonomies client = Some topLevelItem
        /\ forall elems, member topLevelItem "items" = Some (VArr elems) ->
                         taxonomyIds elems = None)
  \/ (exists topLevelItem elems ids n id,
        getTaxonomies client = Some topLevelItem
        /\ member topLevelItem "items" = Some (VArr elems)
        /\ taxonomyIds elems = Some ids
        /\ ids !! n = Some id
        /\ queryTaxonomyCategories client n (Values.to_text id) = None
        /\ n ∈ schedule) ->
  fetchAllTaxonomiesCategories client schedule = Returns VUndefined.
Proof.
  unfold fetchAllTaxonomiesCategories.
  intros [-> | [(top & -> & Hbad) | (top & elems & ids & n & id & -> & Hi & Hids
                                     & Hn & Hq & Hin)]].
  - reflexivity.
  - destruct (member top "items") as [items |]; [| reflexivity].
    cbn [andThen]. destruct items; try reflexivity.
    rewrite (Hbad _ eq_refl). reflexivity.
  - rewrite Hi. cbn [andThen]. rewrite Hids.
    set (issued := issueCategories client 0 ids).
    assert (Hv : issued !! n = Some VUndefined).
    { subst issued. rewrite (issueCategories_lookup client ids 0 n id Hn).
      unfold fetchCategoriesForTaxonomyId. cbn [Nat.add]. rewrite Hq.
      reflexivity. }
    destruct (settleCategories_run issued schedule
                (replicate (length issued) Pending))
      as (_ & Hdone & _).
    { apply length_replicate. }
    { intros j v Hj. left. apply lookup_replicate_2.
      eapply lookup_lt_Some; eauto. }
    specialize (Hdone n VUndefined Hin Hv). cbn in Hdone.
    unfold Promise_all. rewrite (rejected_found _ n Hdone). reflexivity.
Qed.

(** X25.  [fetchAllTaxonomiesCategories] does not reject.  When the
    taxonomies cannot be fetched, when their [items] is not an array of
    objects, or when the fetch of one taxonomy's categories has failed, its
    promise is fulfilled with [undefined]; [getHomePageData] and
    [getStaticPaths] then reject, because they use that value as an array. *)
Theorem taxonomies_failure_rejects_pages (toLowerCase : string -> string)
    (env : Env) (client : ContentClient) (schedule schedule2 : list nat) :
  getTaxonomies client = None
  \/ (exists topLevelItem,
        getTaxonomies client = Some topLevelItem
        /\ forall elems, member topLevelItem "items" = Some (VArr elems) ->
                         taxonomyIds elems = None)
  \/ (exists topLevelItem elems ids n id,
        getTaxonomies client = Some topLevelItem
        /\ member topLevelItem "items" = Some (VArr elems)
        /\ taxonomyIds elems = Some ids
        /\ ids !! n = Some id
        /\ queryTaxonomyCategories client n (Values.to_text id) = None
        /\ n ∈ schedule) ->
  fetchAllTaxonomiesCategories client schedule = Returns VUndefined
  /\ getHomePageData toLowerCase env client schedule schedule2 = Fails
  /\ CategoryPage.getStaticPaths client schedule = Fails.
Proof.
  intros H. pose proof (fetchAll_undefined client schedule H) as Hu.
  unfold getHomePageData, CategoryPage.getStaticPaths. rewrite Hu.
  repeat split.
Qed.

(** X26.  When the taxonomies and the categories of each of them are
    fetched, the result is one flat array: the categories of the first
    taxonomy, then those of the second, and so on, in the order of the
    taxonomies and whatever the order in which the fetches complete. *)
Theorem fetchAllTaxonomiesCategories_in_taxonomy_order (client : ContentClient)
    (schedule : list nat) (topLevelItem : Value) (taxonomies ids : list Value) :
  getTaxonomies client = Some topLevelItem ->
  member topLevelItem "items" = Some (VArr taxonomies) ->
  taxonomyIds taxonomies = Some ids ->
  (forall n id, ids !! n = Some id ->
     exists c, queryTaxonomyCategories client n (Values.to_text id)
               = Some (VObj c)) ->
  Permutation schedule (seq 0 (length ids)) ->
  exists lists,
    length lists = length ids
    /\ (forall n id, ids !! n = Some id ->
          exists c, queryTaxonomyCategories client n (Values.to_text id)
                    = Some (VObj c)
                    /\ lists !! n = Some (get_prop "items" c))
    /\ fetchAllTaxonomiesCategories client schedule
       = Returns (VArr (concat (List.map leaves lists))).
Proof.
  intros Ht Hi Hids Hq Hperm. unfold fetchAllTaxonomiesCategories.
  rewrite Ht, Hi. cbn [andThen]. rewrite Hids.
  set (issued := issueCategories client 0 ids).
  assert (Hlen : length issued = length ids)
    by apply issueCategories_length.
  assert (Hiss : forall n id, ids !! n = Some id ->
            exists c, queryTaxonomyCategories client n (Values.to_text id)
                      = Some (VObj c)
                      /\ issued !! n = Some (VObj c)).
  { intros n id Hn. destruct (Hq n id Hn) as [c Hc]. exists c.
    split; [exact Hc |]. subst issued.
    rewrite (issueCategories_lookup client ids 0 n id Hn).
    unfold fetchCategoriesForTaxonomyId. cbn [Nat.add]. rewrite Hc.
    reflexivity. }
  destruct (settleCategories_run issued schedule
              (replicate (length issued) Pending))
    as (Hlen' & Hdone & _).
  { apply length_replicate. }
  { intros j v Hj. left. apply lookup_replicate_2.
    eapply lookup_lt_Some; eauto. }
  set (ps := fold_left (settleCategories issued) schedule _) in *.
  assert (Hall : forall n id, ids !! n = Some id ->
            exists c, queryTaxonomyCategories client n (Values.to_text id)
                      = Some (VObj c)
                      /\ ps !! n = Some (Fulfilled (get_prop "items" c))).
  { intros n id Hn. destruct (Hiss n id Hn) as (c & Hc & Hn').
    exists c. split; [exact Hc |].
    apply (Hdone n (VObj c)); [| exact Hn'].
    rewrite Hperm. apply elem_of_seq.
    apply lookup_lt_Some in Hn. lia. }
  destruct (values_fulfilled ps) as (vs & Hvs & Hlenv & Hlook).
  { intros i Hlt. rewrite Hlen', Hlen in Hlt.
    destruct (lookup_lt_is_Some_2 ids i Hlt) as [id Hid].
    destruct (Hall i id Hid) as (c & _ & Hp). eauto. }
  rewrite Hvs, flattenArray_leaves. cbn [app].
  exists vs. split; [rewrite Hlenv, Hlen', Hlen; reflexivity | split].
  - intros n id Hn. destruct (Hall n id Hn) as (c & Hc & Hp).
    exists c. split; [exact Hc | apply Hlook, Hp].
  - reflexivity.
Qed.

End Taxonomies.
